(** * PowerGenome: region validation, zone numbering and region aggregation

    A shallow embedding of [powergenome/util.py] and of the [main] pipeline of
    [powergenome/extract_pudl_data.py], with the properties of the
    specification stated and proved against it.

    Conventions.
    - A Python [str] is a [string]: the bytes of its UTF-8 encoding.  Python
      orders strings by code point, and the byte-wise order of UTF-8 agrees
      with the code-point order, so [String.le] is Python's [<=] on [str].
    - A Python [dict] that is only looked up is a [gmap]; a [dict] that is
      iterated is the list of its items in insertion order.
    - A pandas column is the list of its cells in row order. *)

From Stdlib Require Import Floats ZArith Ascii.
From stdpp Require Import gmap strings list fin_maps sorting pretty.

(* [set_solver] clears hypotheses by name while it works. *)
Set Warnings "-clear-no-such-hyp".

(** ** Python built-ins used by the code *)
Module Py.

(** [sorted(l)] on a list of [str].  The order is total and antisymmetric,
    so the sorted list is unique and the sorting algorithm is immaterial. *)
Definition sorted (l : list string) : list string := merge_sort String.le l.

(** A dict display or comprehension evaluates its items left to right and
    stores each one; a later item with the same key overwrites. *)
Definition dict_of_pairs {V} (l : list (string * V)) : gmap string V :=
  foldl (λ m kv, <[kv.1 := kv.2]> m) ∅ l.

(** [f"{n}"] for a non-negative [int]. *)
Definition fstring_int (n : nat) : string := pretty n.

(** [range(n)] *)
Definition range (n : nat) : list nat := seq 0 n.

(** [", ".join(l)] *)
Fixpoint join (sep : string) (l : list string) : string :=
  match l with
  | [] => ""
  | [x] => x
  | x :: l' => x +:+ sep +:+ join sep l'
  end.

(** [d[k]] on the items of a dict. *)
Fixpoint getitem {V} (d : list (string * V)) (k : string) : option V :=
  match d with
  | [] => None
  | (k', v) :: d' => if decide (k' = k) then Some v else getitem d' k
  end.

(** [list(d)] and [for k in d]: the keys in insertion order. *)
Definition keys {V} (d : list (string * V)) : list string := d.*1.

(** [all(l)] on a list of [bool]. *)
Definition all (l : list bool) : bool := forallb id l.

(** The characters that [int] skips around a number: tab to carriage
    return, and the space. *)
Definition is_int_space (c : ascii) : bool :=
  let n := N_of_ascii c in ((9 <=? n) && (n <=? 13) || (n =? 32))%N.

Fixpoint lstrip_int (s : string) : string :=
  match s with
  | EmptyString => EmptyString
  | String c s' => if is_int_space c then lstrip_int s' else s
  end.

Fixpoint rstrip_int (s : string) : string :=
  match s with
  | EmptyString => EmptyString
  | String c s' =>
      match rstrip_int s' with
      | EmptyString =>
          if is_int_space c then EmptyString else String c EmptyString
      | r => String c r
      end
  end.

Definition digit_of (c : ascii) : option Z :=
  let n := N_of_ascii c in
  if ((48 <=? n) && (n <=? 57))%N then Some (Z.of_N (n - 48)) else None.

(** The digits of a decimal literal; one underscore may stand between two
    digits.  [after_digit] tells that the previous character was a digit. *)
Fixpoint int_digits (acc : Z) (after_digit : bool) (s : string) : option Z :=
  match s with
  | EmptyString => if after_digit then Some acc else None
  | String c s' =>
      match digit_of c with
      | Some d => int_digits (acc * 10 + d) true s'
      | None =>
          if bool_decide (c = "_"%char) && after_digit
          then int_digits acc false s'
          else None
      end
  end.

(** [int(s)] for a [str] of ASCII characters: blanks around, a sign, the
    digits.  [None] is the [ValueError]. *)
Definition int_of_str (s : string) : option Z :=
  match rstrip_int (lstrip_int s) with
  | String "+"%char digits => int_digits 0 false digits
  | String "-"%char digits => Z.opp <$> int_digits 0 false digits
  | digits => int_digits 0 false digits
  end.

End Py.

(** ** The part of pandas and NumPy that the code relies on *)
Module Pandas.

(** A cell of a table: a string, a binary64 float (NaN marks a missing
    value), an integer, or a Python float that a column of objects holds. *)
Inductive cell :=
| Str (s : string)
| Num (x : float)
| Int (z : Z)
| Obj (x : float).

Definition NaN : cell := Num nan.

Definition is_Num (c : cell) : bool :=
  match c with Num _ => true | _ => false end.

Definition is_Str (c : cell) : bool :=
  match c with Str _ => true | _ => false end.

(** The dtype of an array of cells (a column, the labels of an index level,
    the column labels): it is [float64] when it has cells and all of them
    are [Num]; any other array is an array of objects or of integers, and a
    [Num] in it is a Python float like an [Obj]. *)
Definition is_float_array (values : list cell) : bool :=
  match values with
  | [] => false
  | _ => forallb is_Num values
  end.

(** A dataframe: the names of the index levels, one tuple of index labels
    per row, and the columns in order, each a label with its cells. *)
Record DataFrame := mkDataFrame {
  index_names : list string;
  index : list (list cell);
  columns : list (cell * list cell)
}.

Definition label_is (name : string) (label : cell) : bool :=
  match label with
  | Str s => bool_decide (s = name)
  | _ => false
  end.

(** [df[name]] and [df.loc[:, name]] on a dataframe whose column labels are
    pairwise distinct, where the column found first is the only one; [None]
    is the [KeyError]. *)
Fixpoint getitem_col (cols : list (cell * list cell)) (name : string)
  : option (list cell) :=
  match cols with
  | [] => None
  | (label, col) :: cols' =>
      if label_is name label then Some col else getitem_col cols' name
  end.

(** [df[name] = col]: an existing column is overwritten where it stands, a
    new one is appended. *)
Fixpoint setitem_col (cols : list (cell * list cell)) (name : string)
  (col : list cell) : list (cell * list cell) :=
  match cols with
  | [] => [(Str name, col)]
  | (label, old) :: cols' =>
      if label_is name label then (label, col) :: cols'
      else (label, old) :: setitem_col cols' name col
  end.

(** [Series.isin(keys)] for string keys. *)
Definition isin (col : list cell) (ks : gset string) : list bool :=
  (λ c, match c with Str s => bool_decide (s ∈ ks) | _ => false end) <$> col.

(** [Series.map(d)] and [Index.map(d)] for a dict with string keys: a value
    that is not a key becomes NaN. *)
Definition map_dict (d : gmap string string) (col : list cell) : list cell :=
  (λ c, match c with
        | Str s => match d !! s with Some v => Str v | None => NaN end
        | _ => NaN
        end) <$> col.

(** [s.loc[mask]]: the cells of the rows the mask selects. *)
Fixpoint loc_get (mask : list bool) (col : list cell) : list cell :=
  match mask, col with
  | b :: mask', c :: col' =>
      if b then c :: loc_get mask' col' else loc_get mask' col'
  | _, _ => []
  end.

(** [df.loc[mask, name] = values], [values] being a series over the rows
    that the mask selects, in row order. *)
Fixpoint loc_set (mask : list bool) (col values : list cell) : list cell :=
  match mask, col with
  | b :: mask', c :: col' =>
      if b then
        match values with
        | v :: values' => v :: loc_set mask' col' values'
        | [] => c :: loc_set mask' col' []
        end
      else c :: loc_set mask' col' values
  | _, _ => col
  end.

(** [prefix + index]: string concatenation label by label; a missing label
    stays missing. *)
Definition radd_str (prefix : string) (labels : list cell) : list cell :=
  (λ c, match c with Str s => Str (prefix +:+ s) | _ => NaN end) <$> labels.

(** *** Floats *)

(** The exact value of a finite binary64 number: a sign and the quotient
    [num / den] of its magnitude, [den] a power of two. *)
Record exact := mkExact { neg : bool; num : Z; den : Z }.

Definition exact_of_SF (x : spec_float) : option exact :=
  match x with
  | S754_zero s => Some (mkExact s 0 1)
  | S754_finite s m e =>
      Some (if decide (0 ≤ e)%Z then mkExact s (Z.pos m * 2 ^ e) 1
            else mkExact s (Z.pos m) (2 ^ (- e)))
  | _ => None
  end.

Definition exact_of (x : float) : option exact := exact_of_SF (Prim2SF x).

(** The conversion of a float to [int64]: the fraction is discarded
    (truncation toward zero). *)
Definition trunc (v : exact) : Z :=
  let a := (num v `div` den v)%Z in if neg v then (- a)%Z else a.

Definition in_int64 (z : Z) : bool :=
  bool_decide (- 2 ^ 63 ≤ z < 2 ^ 63)%Z.

Definition int64_min : Z := (- 2 ^ 63)%Z.

(** The cast of a finite [float64] to [int64] that NumPy compiles to: the
    fraction is discarded, and a value outside the range gives the smallest
    [int64] (the result of the x86-64 conversion instruction); nothing is
    raised. *)
Definition float_to_int64 (v : exact) : Z :=
  if in_int64 (trunc v) then trunc v else int64_min.

(** The conversion of a Python integer to [int64]; [None] is the
    [OverflowError]. *)
Definition int_to_int64 (z : Z) : option cell :=
  if in_int64 z then Some (Int z) else None.

(** [astype(int)] on one cell of a column.  On a [float64] column pandas
    raises on NaN and on the infinities and casts the rest.  In any other
    column every object goes through [int] and then into [int64]: a float
    is truncated ([int] raises on NaN and on the infinities), a string is
    parsed.  [None] is the exception. *)
Definition astype_int (float_dtype : bool) (c : cell) : option cell :=
  match c with
  | Num x =>
      v ← exact_of x;
      if float_dtype then Some (Int (float_to_int64 v))
      else int_to_int64 (trunc v)
  | Obj x => v ← exact_of x; int_to_int64 (trunc v)
  | Int z => int_to_int64 z
  | Str s => z ← Py.int_of_str s; int_to_int64 z
  end.

Definition astype_int_column (col : list cell) : option (list cell) :=
  mapM (astype_int (is_float_array col)) col.

(** [df.astype(int)]: every column is converted, or the call raises. *)
Definition astype_int_frame (df : DataFrame) : option DataFrame :=
  cols ← mapM (λ lc : cell * list cell,
                 col ← astype_int_column lc.2; Some (lc.1, col)) (columns df);
  Some (mkDataFrame (index_names df) (index df) cols).

(** Rounding of the quotient [n / d] of non-negative integers to the
    nearest integer, a tie going to the even neighbour. *)
Definition round_half_even (n d : Z) : Z :=
  let q := (n `div` d)%Z in
  let r := (n `mod` d)%Z in
  if (2 * r <? d)%Z then q
  else if (d <? 2 * r)%Z then (q + 1)%Z
  else if Z.even q then q else (q + 1)%Z.

(** The last [p] decimal digits of [n], with leading zeros. *)
Fixpoint fixed_digits (p : nat) (n : N) : string :=
  match p with
  | O => ""
  | S p' =>
      fixed_digits p' (n `div` 10)%N +:+ String (pretty_N_char (n `mod` 10)%N) ""
  end.

(** The magnitude of [v] in units of [10^-p], correctly rounded. *)
Definition scaled (p : nat) (v : exact) : Z :=
  round_half_even (num v * 10 ^ Z.of_nat p) (den v).

(** ["%.pf" % x]: the exact value of [x], correctly rounded to [p]
    decimals, printed with all [p] of them. *)
Definition percent_f (p : nat) (x : float) : string :=
  match Prim2SF x with
  | S754_nan => "nan"
  | S754_infinity s => if s then "-inf" else "inf"
  | sf =>
      match exact_of_SF sf with
      | None => ""
      | Some v =>
          let n := Z.to_N (scaled p v) in
          (if neg v then "-" else "")
          +:+ pretty (n `div` 10 ^ N.of_nat p)%N
          +:+ (if p is O then "" else
                 "." +:+ fixed_digits p (n `mod` 10 ^ N.of_nat p)%N)
      end
  end.

Definition is_nan (x : float) : bool :=
  match Prim2SF x with S754_nan => true | _ => false end.

(** A missing value. *)
Definition is_missing (c : cell) : bool :=
  match c with
  | Num x | Obj x => is_nan x
  | _ => false
  end.

(** One field of [to_csv], for a cell of an array that is [float64] or is
    not: a missing value is written as the empty string ([na_rep]); any
    other float of a [float64] array goes through [float_format], and any
    other float among objects is written as Python prints it ([repr]); an
    integer is written in decimal. *)
Definition csv_field (float_format repr : float → string) (float_dtype : bool)
  (c : cell) : string :=
  match c with
  | Str s => s
  | Int z => pretty z
  | Num x =>
      if is_nan x then ""
      else if float_dtype then float_format x else repr x
  | Obj x => if is_nan x then "" else repr x
  end.

(** The fields of one array: pandas formats an array as a whole, by its
    dtype. *)
Definition format_values (float_format repr : float → string)
  (values : list cell) : list string :=
  csv_field float_format repr (is_float_array values) <$> values.

(** The labels of the level at position [k], row by row. *)
Definition level_values (k : nat) (index : list (list cell)) : list cell :=
  (λ labels : list cell, default NaN (labels !! k)) <$> index.

(** [df.to_csv(..., float_format=...)]: the header line, then one line per
    row: the index labels followed by the cells of the row.  [repr] is
    Python's [repr] on floats; without a [float_format] it is used for the
    [float64] arrays as well. *)
Definition to_csv (float_format repr : float → string) (df : DataFrame)
  : list (list string) :=
  (index_names df ++ format_values float_format repr (columns df).*1)
  :: imap (λ i labels,
             imap (λ (k : nat) (_ : cell),
                     default "" (format_values float_format repr
                                   (level_values k (index df)) !! i)) labels
             ++ ((λ lc : cell * list cell,
                    default "" (format_values float_format repr lc.2 !! i))
                   <$> columns df))
       (index df).

(** [index.get_level_values(name)]; [None] is the [KeyError] of a name that
    no level has, or the [ValueError] of a name that several levels have. *)
Definition get_level_values (df : DataFrame) (name : string)
  : option (list cell) :=
  i ← list_find (λ n, n = name) (index_names df);
  if decide (name ∈ drop (S i.1) (index_names df)) then None
  else Some (level_values i.1 (index df)).

End Pandas.

(** ** powergenome/util.py *)
Module Util.
Import Pandas.

(** The settings file as [yaml.safe_load] returns it: the two keys the
    pipeline reads, and the remaining options, which it passes on. *)
Record Settings := mkSettings {
  model_regions : list string;
  region_aggregations : list (string * list string);
  other_options : list (string * string)
}.

(** [load_settings(path)], over the parsed content of the files; [None] is
    the error of [open]. *)
Definition load_settings (files : gmap string Settings) (path : string)
  : option Settings := files !! path.

(** The items [v: k] that the comprehension [for k in d for v in d[k]]
    produces.  Every [k] comes from [d] itself, so [d[k]] cannot raise; the
    [default] branch is never taken. *)
Definition member_pairs (d : list (string * list string))
  : list (string * string) :=
  k ← Py.keys d; v ← default [] (Py.getitem d k); [(v, k)].

(** [{v: k for k in d for v in d[k]}] *)
Definition reverse_dict_of_lists (d : list (string * list string))
  : gmap string string :=
  Py.dict_of_pairs (member_pairs d).

(** Dataframes are objects: a function receives a reference into the heap
    of dataframes and mutates the object it points to. *)
Definition ref := positive.

(** [map_agg_region_names(df, region_agg_map, original_col_name,
    new_col_name)].  The first statement copies the original column into
    the new one; the second evaluates its right-hand side, then the mask
    of its target, and stores.  [None] is the [KeyError] of a missing
    original column, raised before anything is stored. *)
Definition map_agg_region_names (heap : gmap ref DataFrame) (df : ref)
  (region_agg_map : gmap string string)
  (original_col_name new_col_name : string)
  : option (ref * gmap ref DataFrame) :=
  d0 ← heap !! df;
  original ← getitem_col (columns d0) original_col_name;
  let d1 := mkDataFrame (index_names d0) (index d0)
              (setitem_col (columns d0) new_col_name original) in
  rhs_col ← getitem_col (columns d1) original_col_name;
  let rhs := map_dict region_agg_map
               (loc_get (isin rhs_col (dom region_agg_map)) rhs_col) in
  mask_col ← getitem_col (columns d1) original_col_name;
  let mask := isin mask_col (dom region_agg_map) in
  target ← getitem_col (columns d1) new_col_name;
  let d2 := mkDataFrame (index_names d1) (index d1)
              (setitem_col (columns d1) new_col_name
                 (loc_set mask target rhs)) in
  Some (df, <[df := d2]> heap).

End Util.

(** ** powergenome/extract_pudl_data.py *)
Module ExtractPudlData.
Import Pandas Util.

Inductive level := INFO | WARNING.

#[global] Instance level_eq_dec : EqDecision level.
Proof. solve_decision. Defined.

(** One record of the logger: its level and its message. *)
Abbreviation log_record := (level * string)%type.

(** The records of a log that are warnings. *)
Definition warnings (l : list log_record) : list log_record :=
  filter (λ r, r.1 = WARNING) l.

(** The parsed command line. *)
Record Args := mkArgs {
  settings_file : string;
  results_folder : string;
  all_units : bool
}.

Definition invalid_regions_message : string :=
  "One or more model regions is not valid. Check to make sure all regions "
  +:+ "are either in IPM or region_aggregations in the settings YAML file.".

(** *** Region Validator (lines 95-107) *)

Definition all_valid_regions (ipm_regions : list string) (settings : Settings)
  : list string :=
  ipm_regions ++ Py.keys (region_aggregations settings).

Definition good_regions (ipm_regions : list string) (settings : Settings)
  : list bool :=
  (λ region, bool_decide (region ∈ all_valid_regions ipm_regions settings))
    <$> model_regions settings.

(** The records that the validator sends to the logger. *)
Definition validate_regions (ipm_regions : list string) (settings : Settings)
  : list log_record :=
  if negb (Py.all (good_regions ipm_regions settings))
  then [(WARNING, invalid_regions_message)]
  else [].

(** *** Zone Indexer (lines 109-115) *)

(** [settings["model_regions"] = sorted(settings["model_regions"])]: the
    settings object is updated in place. *)
Definition sort_zones (settings : Settings) : Settings :=
  mkSettings (Py.sorted (model_regions settings))
    (region_aggregations settings) (other_options settings).

(** The items [zone: f"{number + 1}"] that the comprehension
    [for zone, number in zip(zones, range(len(zones)))] produces. *)
Definition zone_pairs (zones : list string) : list (string * string) :=
  (λ zn : string * nat, (zn.1, Py.fstring_int (zn.2 + 1)))
    <$> zip zones (Py.range (length zones)).

(** [{zone: f"{number + 1}" for zone, number in zip(zones, range(len(zones)))}] *)
Definition zone_num_map (zones : list string) : gmap string string :=
  Py.dict_of_pairs (zone_pairs zones).

(** The indexer: the updated settings, the Zone Map and the log record. *)
Definition zone_indexer (settings : Settings)
  : Settings * gmap string string * list log_record :=
  let settings := sort_zones settings in
  let zones := model_regions settings in
  (settings, zone_num_map zones,
   [(INFO, "Sorted zones are " +:+ Py.join ", " zones)]).

(** *** Relabelling by zone (lines 121-126) *)

(** [gen_clusters["zone"] = gen_clusters.index.get_level_values("region").map(zone_num_map)] *)
Definition add_zone_column (zone_num_map : gmap string string)
  (gen_clusters : DataFrame) : option DataFrame :=
  regions ← get_level_values gen_clusters "region";
  Some (mkDataFrame (index_names gen_clusters) (index gen_clusters)
          (setitem_col (columns gen_clusters) "zone"
             (map_dict zone_num_map regions))).

(** The load table with the labels ["Load_MW_z" + zone] that line 126
    stores when it does not raise: the cells stay, a label that the Zone
    Map does not know becomes a missing label. *)
Definition rename_load_columns (zone_num_map : gmap string string)
  (load : DataFrame) : DataFrame :=
  mkDataFrame (index_names load) (index load)
    (zip (radd_str "Load_MW_z" (map_dict zone_num_map (columns load).*1))
         (columns load).*2).

(** Some label is a key of the Zone Map. *)
Definition has_zone_label (zone_num_map : gmap string string)
  (labels : list cell) : bool :=
  existsb (λ c, match c with
                | Str s => bool_decide (is_Some (zone_num_map !! s))
                | _ => false
                end) labels.

(** [load.columns = "Load_MW_z" + load.columns.map(zone_num_map)].  When no
    label is a key of the Zone Map (so also when the table has no column)
    the mapped index holds no string, and adding the prefix to it raises:
    that is [None]. *)
Definition set_load_columns (zone_num_map : gmap string string)
  (load : DataFrame) : option DataFrame :=
  if has_zone_label zone_num_map (columns load).*1
  then Some (rename_load_columns zone_num_map load)
  else None.

(** [load.astype(int).to_csv(...)]: the content of the load file. *)
Definition load_csv (repr_float : float → string) (load : DataFrame)
  : option (list (list string)) :=
  to_csv repr_float repr_float <$> astype_int_frame load.

(** The files of a run: name and content, in the order of writing. *)
Definition files : Type := list (string * list (list string)).

Section Main.
(** The collaborators: the generator clusterer (with the unit table and
    the region geometry it leaves on the [gc] object), the load and
    transmission builders, Python's [repr] of a float, and the git hash.
    Each builder is handed the settings object and may raise. *)
Context {Gdf : Type}.
Variable GeneratorClusters :
  Settings → option (DataFrame * DataFrame * Gdf).
Variable load_curves : Settings → option DataFrame.
Variable agg_transmission_constraints : Settings → option DataFrame.
Variable transmission_line_distance :
  DataFrame → Gdf → Settings → option DataFrame.
Variable repr_float : float → string.
Variable git_hash : string.

(** Lines 117-136: the three tables, built from the settings as the Zone
    Indexer left them. *)
Definition build_tables (settings : Settings)
  (zone_num_map : gmap string string)
  : option (DataFrame * DataFrame * DataFrame * DataFrame) :=
  '(gen_clusters, gc_all_units, model_regions_gdf) ← GeneratorClusters settings;
  gen_clusters ← add_zone_column zone_num_map gen_clusters;
  load ← load_curves settings;
  load ← set_load_columns zone_num_map load;
  transmission ← agg_transmission_constraints settings;
  transmission ←
    transmission_line_distance transmission model_regions_gdf settings;
  Some (gen_clusters, gc_all_units, load, transmission).

(** The outcome of a run: the log, the settings object as the run left
    it, and the files written.  An exception ends the run where it is
    raised: the log and the files written so far remain. *)
Record Outcome := mkOutcome {
  log : list log_record;
  final_settings : option Settings;
  written : files;
  completed : bool
}.

Definition main (args : Args) (yaml_files : gmap string Settings)
  (ipm_regions : list string) : Outcome :=
  let log0 := [(INFO, "Current git hash is " +:+ git_hash);
               (INFO, "Reading settings file")] in
  match load_settings yaml_files (settings_file args) with
  | None => mkOutcome log0 None [] false
  | Some settings =>
      let log1 := log0 ++ [(INFO, "Initiating PUDL connections")]
                  ++ validate_regions ipm_regions settings in
      let '(settings, zone_num_map, records) := zone_indexer settings in
      let log2 := log1 ++ records in
      match build_tables settings zone_num_map with
      | None => mkOutcome log2 (Some settings) [] false
      | Some tables =>
          let log3 := log2 ++ [(INFO, "Write GenX input files")] in
          let '(gen_clusters, gc_all_units, load, transmission) := tables in
          let f1 := [("generator_clusters_" +:+ results_folder args +:+ ".csv",
                      to_csv (percent_f 3) repr_float gen_clusters)] in
          let f2 := if all_units args
                    then [("all_units_" +:+ results_folder args +:+ ".csv",
                           to_csv repr_float repr_float gc_all_units)]
                    else [] in
          match load_csv repr_float load with
          | None => mkOutcome log3 (Some settings) (f1 ++ f2) false
          | Some load_file =>
              mkOutcome log3 (Some settings)
                (f1 ++ f2
                 ++ [("load_curves_" +:+ results_folder args +:+ ".csv",
                      load_file);
                     ("transmission_constraints_" +:+ results_folder args
                      +:+ ".csv",
                      to_csv (percent_f 1) repr_float transmission)])
                true
          end
      end
  end.
End Main.

End ExtractPudlData.

Import Pandas Util ExtractPudlData.

(** ** Vocabulary of the statements *)

(** The items of the comprehension, key by key. *)
Definition pairs_of_item (kvs : string * list string)
  : list (string * string) := (λ v, (v, kvs.1)) <$> kvs.2.

(** [z] is the value of [v] with its fraction discarded: [|z| <= |v| < |z| + 1]
    and [z] has the sign of [v]. *)
Definition truncated (v : exact) (z : Z) : Prop :=
  (Z.abs z * den v ≤ num v < (Z.abs z + 1) * den v)%Z ∧
  (if neg v then z ≤ 0 else 0 ≤ z)%Z.

(** [n] units of [10^-p] is a nearest [p]-decimal number to the magnitude of
    [v], and the even one of the two when [v] lies half-way. *)
Definition nearest (p : nat) (v : exact) (n : Z) : Prop :=
  (0 ≤ n)%Z ∧
  (2 * Z.abs (n * den v - num v * 10 ^ Z.of_nat p) ≤ den v)%Z ∧
  ((2 * Z.abs (n * den v - num v * 10 ^ Z.of_nat p) = den v)%Z → Z.even n).

(** The number that a string of decimal digits denotes. *)
Fixpoint digits_value_from (acc : N) (s : string) : N :=
  match s with
  | EmptyString => acc
  | String c s' =>
      digits_value_from (acc * 10 + (N_of_ascii c - 48))%N s'
  end.

Definition digits_value (s : string) : N := digits_value_from 0 s.

Fixpoint all_digits (s : string) : bool :=
  match s with
  | EmptyString => true
  | String c s' =>
      bool_decide (48 ≤ N_of_ascii c ≤ 57)%N && all_digits s'
  end.

(** A float cell that holds NaN or an infinity. *)
Definition non_finite (c : cell) : Prop :=
  ∃ x, (c = Num x ∨ c = Obj x) ∧ exact_of x = None.

(** Every cell of the table is a finite float. *)
Definition finite_floats (df : DataFrame) : Prop :=
  Forall (λ lc : cell * list cell,
            Forall (λ c, ∃ x v, c = Num x ∧ exact_of x = Some v) lc.2)
    (columns df).



(** [s] is the magnitude of [v] rounded to the nearest number of [p]
    decimals (the even one on a tie), written with its sign, its integer
    part, a point and exactly [p] decimal digits. *)
Definition written_with (p : nat) (v : exact) (s : string) : Prop :=
  ∃ n : Z,
    nearest p v n ∧
    let fp := fixed_digits p (Z.to_N n `mod` 10 ^ N.of_nat p)%N in
    s = (if neg v then "-" else "")
        +:+ pretty (Z.to_N n `div` 10 ^ N.of_nat p)%N +:+ "." +:+ fp ∧
    String.length fp = p ∧ all_digits fp = true ∧
    digits_value fp = (Z.to_N n `mod` 10 ^ N.of_nat p)%N.

(** ** A small run *)

(** The floats behind the literals [100.12345], [52.37] and [1500.0]. *)
Definition f_100_12345 : float := 0x1.907e69ad42c3dp+6%float.
Definition f_52_37 : float := 0x1.a2f5c28f5c28fp+5%float.
Definition f_1500 : float := 0x1.77p+10%float.
(** The float behind the literal [12.7]; [3.5] is a binary64 number. *)
Definition f_12_7 : float := 0x1.9666666666666p+3%float.
Definition f_minus_12_7 : float := (-0x1.9666666666666p+3)%float.
Definition f_3_5 : float := 0x1.cp+1%float.

(** The builders of a small complete run: one cluster of the given capacity
    in region "a", no unit table, a load table with one column per model
    region and one hour, and one link. *)
Definition demo_clusters (capacity : float) (settings : Settings)
  : option (DataFrame * DataFrame * unit) :=
  Some (mkDataFrame ["region"; "technology"] [[Str "a"; Str "wind"]]
          [(Str "Existing_Cap_MW", [Num capacity])],
        mkDataFrame [] [] [], tt).

Definition demo_load (settings : Settings) : option DataFrame :=
  Some (mkDataFrame ["time_index"] [[Int 1]]
          ((λ region, (Str region, [Num f_12_7])) <$> model_regions settings)).

Definition demo_transmission (settings : Settings) : option DataFrame :=
  Some (mkDataFrame ["transmission_path_name"] [[Str "a_to_b"]]
          [(Str "Line_Max_Flow_MW", [Num f_1500]);
           (Str "distance_mile", [Num f_52_37])]).

Definition demo_run_with (capacity : float)
  (model_regions ipm_regions : list string) : Outcome :=
  main (demo_clusters capacity) demo_load demo_transmission
    (λ transmission _ _, Some transmission) (λ _, "") "0000000"
    (mkArgs "settings.yml" "demo" false)
    {[ "settings.yml" := mkSettings model_regions [] [] ]}
    ipm_regions.

Definition demo_run : list string → list string → Outcome :=
  demo_run_with f_100_12345.

(** The float behind the literal [1e19], a number beyond the [int64]
    range. *)
Definition f_1e19 : float := 0x1.158e460913dp+63%float.

(** The same run with a load builder that returns the given table whatever
    the settings say. *)
Definition demo_run_load (load : DataFrame)
  (model_regions ipm_regions : list string) : Outcome :=
  main (demo_clusters f_100_12345) (λ _, Some load) demo_transmission
    (λ transmission _ _, Some transmission) (λ _, "") "0000000"
    (mkArgs "settings.yml" "demo" false)
    {[ "settings.yml" := mkSettings model_regions [] [] ]}
    ipm_regions.


(** Two hours of load in the regions "a" and "b". *)
Definition demo_load_ab : DataFrame :=
  mkDataFrame ["time_index"] [[Int 0]; [Int 1]]
    [(Str "a", [Num f_12_7; Num f_3_5]);
     (Str "b", [Num f_minus_12_7; Num f_3_5])].

(** ** Python's [str] methods used by the naming helpers *)
Module PyStr.

(** The code points below 128: on these a [str] and its UTF-8 bytes are
    the same sequence, and the methods below are the ones of [str]. *)
Definition is_ascii_char (c : ascii) : bool := (N_of_ascii c <? 128)%N.

Fixpoint is_ascii (s : string) : bool :=
  match s with
  | EmptyString => true
  | String c s' => is_ascii_char c && is_ascii s'
  end.

Definition is_upper (c : ascii) : bool :=
  (65 <=? N_of_ascii c)%N && (N_of_ascii c <=? 90)%N.

Definition lower_char (c : ascii) : ascii :=
  if is_upper c then ascii_of_N (N_of_ascii c + 32) else c.

(** [s.lower()] *)
Fixpoint lower (s : string) : string :=
  match s with
  | EmptyString => EmptyString
  | String c s' => String (lower_char c) (lower s')
  end.

(** The ASCII characters for which [str.isspace] holds: tab to carriage
    return, the four separators 28 to 31, and the space. *)
Definition is_space (c : ascii) : bool :=
  let n := N_of_ascii c in
  ((9 <=? n) && (n <=? 13) || (28 <=? n) && (n <=? 32))%N.

(** [s.lstrip()], [s.rstrip()] and [s.strip()] *)
Fixpoint lstrip (s : string) : string :=
  match s with
  | EmptyString => EmptyString
  | String c s' => if is_space c then lstrip s' else s
  end.

Fixpoint rstrip (s : string) : string :=
  match s with
  | EmptyString => EmptyString
  | String c s' =>
      match rstrip s' with
      | EmptyString => if is_space c then EmptyString else String c EmptyString
      | r => String c r
      end
  end.

Definition strip (s : string) : string := rstrip (lstrip s).

(** [s.replace(old, new)] for the empty [old]: [new] goes before every
    character and at the end. *)
Fixpoint interleave (new s : string) : string :=
  match s with
  | EmptyString => new
  | String c s' => new +:+ String c (interleave new s')
  end.

(** [s.replace(old, new)] for a non-empty [old]: the occurrences are found
    from the left and do not overlap.  [skip] counts the characters of an
    occurrence that are still to be dropped. *)
Fixpoint replace_from (old new : string) (skip : nat) (s : string) : string :=
  match s with
  | EmptyString => EmptyString
  | String c s' =>
      match skip with
      | S k => replace_from old new k s'
      | O =>
          if String.prefix old s
          then new +:+ replace_from old new (String.length old - 1) s'
          else String c (replace_from old new 0 s')
      end
  end.

(** [s.replace(old, new)] *)
Definition replace (old new s : string) : string :=
  match old with
  | EmptyString => interleave new s
  | _ => replace_from old new 0 s
  end.

(** [bool(s)] *)
Definition bool_of_str (s : string) : bool :=
  match s with EmptyString => false | _ => true end.

End PyStr.

(** ** powergenome/util.py: the naming helpers *)
Module UtilNames.
Import Pandas.

(** The first argument of the first [replace], as the source spells it (the
    backslash stands for itself in the Python literal). *)
Definition special_pattern : string := "[^0-9a-zA-Z\-]+".

(** [snake_case_str(s)].  [str.replace] takes its first argument literally. *)
Definition snake_case_str (s : string) : string :=
  PyStr.replace " " "_"
    (PyStr.strip
       (PyStr.replace "-" ""
          (PyStr.replace special_pattern " " (PyStr.lower s)))).

(** The characters that the class [[^0-9a-zA-Z\-]] excludes: digits,
    letters and the hyphen. *)
Definition is_word_char (c : ascii) : bool :=
  let n := N_of_ascii c in
  ((48 <=? n) && (n <=? 57) || (97 <=? n) && (n <=? 122)
   || (65 <=? n) && (n <=? 90) || (n =? 45))%N.

(** [re.sub("[^0-9a-zA-Z\-]+", " ", s)]: every maximal run of characters of
    the class becomes one space.  [in_run] tells that the previous character
    belonged to a run. *)
Fixpoint sub_special_runs (in_run : bool) (s : string) : string :=
  match s with
  | EmptyString => EmptyString
  | String c s' =>
      if is_word_char c then String c (sub_special_runs false s')
      else if in_run then sub_special_runs true s'
      else String " " (sub_special_runs true s')
  end.

(** [Series.str.replace(pat, repl)] on one string.  Its [regex] argument is
    not given: the default was [True] before pandas 2.0 and is [False] from
    2.0 on, so the default is a parameter.  As regular expressions the
    patterns ["-"] and [" "] match themselves. *)
Definition str_replace_special (regex_default : bool) (s : string) : string :=
  if regex_default then sub_special_runs false s
  else PyStr.replace special_pattern " " s.

Definition snake_case_elem (regex_default : bool) (s : string) : string :=
  PyStr.replace " " "_"
    (PyStr.strip
       (PyStr.replace "-" ""
          (str_replace_special regex_default (PyStr.lower s)))).

(** The check of the [.str] accessor: the column holds a string, or it is
    a column of objects that holds missing values only.  A column of
    numbers has no [.str]. *)
Definition str_accessor_ok (col : list cell) : bool :=
  existsb is_Str col || negb (is_float_array col) && forallb is_missing col.

(** [snake_case_col(col)]: the [.str] methods work on the strings and give
    NaN for every other cell; [None] is the [AttributeError] of the
    accessor. *)
Definition snake_case_col (regex_default : bool) (col : list cell)
  : option (list cell) :=
  if str_accessor_ok col then
    Some ((λ c, match c with
                | Str s => Str (snake_case_elem regex_default s)
                | _ => NaN
                end) <$> col)
  else None.

End UtilNames.

(** ** powergenome/extract_pudl_data.py: the command line *)
Module CommandLine.
Import ExtractPudlData.

(** What [parser.parse_args] does with a list of words: it returns the
    options, or it reports an error and raises [SystemExit(2)].  A word that
    starts with a hyphen and is not one of the six option strings (an
    abbreviation, [--option=value], [-h], [--], a negative number) is
    outside this model. *)
Inductive parse_result :=
| Parsed (args : Args)
| SystemExit (code : Z)
| Unmodelled.

Inductive option_name := SettingsFile | ResultsFolder | AllUnits.

(** The option strings of the three [add_argument] calls. *)
Definition option_of (word : string) : option option_name :=
  if decide (word = "-sf") then Some SettingsFile
  else if decide (word = "--settings_file") then Some SettingsFile
  else if decide (word = "-rf") then Some ResultsFolder
  else if decide (word = "--results_folder") then Some ResultsFolder
  else if decide (word = "-a") then Some AllUnits
  else if decide (word = "--all_units") then Some AllUnits
  else None.

Definition starts_with_hyphen (word : string) : bool :=
  match word with
  | String c _ => bool_decide (c = "-"%char)
  | EmptyString => false
  end.

(** The action of an option on its argument: [type=str] keeps the word,
    [type=bool] calls [bool] on it. *)
Definition store (o : option_name) (value : string) (args : Args) : Args :=
  match o with
  | SettingsFile => mkArgs value (results_folder args) (all_units args)
  | ResultsFolder => mkArgs (settings_file args) value (all_units args)
  | AllUnits =>
      mkArgs (settings_file args) (results_folder args)
        (PyStr.bool_of_str value)
  end.

(** The words from left to right.  An option takes the next word as its
    argument if that word does not start with a hyphen, and fails with
    "expected one argument" otherwise; a word that is no option and no
    argument is collected and reported at the end ("unrecognized
    arguments"). *)
Fixpoint parse_words (words : list string) (args : Args) (extras : bool)
  : parse_result :=
  match words with
  | [] => if extras then SystemExit 2 else Parsed args
  | word :: rest =>
      if starts_with_hyphen word then
        match option_of word with
        | None => Unmodelled
        | Some o =>
            match rest with
            | [] => SystemExit 2
            | value :: rest' =>
                if starts_with_hyphen value then
                  match option_of value with
                  | None => Unmodelled
                  | Some _ => SystemExit 2
                  end
                else parse_words rest' (store o value args) extras
            end
        end
      else parse_words rest args true
  end.

(** [parse_command_line(argv)]; [now] is the time stamp that serves as the
    default results folder. *)
Definition parse_command_line (now : string) (argv : list string)
  : parse_result :=
  parse_words (drop 1 argv)
    (mkArgs "pudl_data_extraction.yml" now true) false.

End CommandLine.

(** ** Vocabulary of the further statements *)

(** Every character of [s] satisfies [P]. *)
Fixpoint all_chars (P : ascii → bool) (s : string) : bool :=
  match s with
  | EmptyString => true
  | String c s' => P c && all_chars P s'
  end.

(** The string with every character replaced by its image. *)
Fixpoint map_chars (g : ascii → ascii) (s : string) : string :=
  match s with
  | EmptyString => EmptyString
  | String c s' => String (g c) (map_chars g s')
  end.

(** The string without the characters that fail [P]. *)
Fixpoint filter_chars (P : ascii → bool) (s : string) : string :=
  match s with
  | EmptyString => EmptyString
  | String c s' =>
      if P c then String c (filter_chars P s') else filter_chars P s'
  end.

Definition first_char (s : string) : option ascii :=
  match s with
  | EmptyString => None
  | String c _ => Some c
  end.

Fixpoint last_char (s : string) : option ascii :=
  match s with
  | EmptyString => None
  | String c EmptyString => Some c
  | String _ s' => last_char s'
  end.

Definition is_hyphen (c : ascii) : bool := bool_decide (c = "-"%char).
Definition is_blank (c : ascii) : bool := bool_decide (c = " "%char).
Definition is_underscore (c : ascii) : bool := bool_decide (c = "_"%char).

(** What the last [replace] of the naming helpers does to a character. *)
Definition blank_to_underscore (c : ascii) : ascii :=
  if is_blank c then "_"%char else c.

(** No capital letter, no hyphen, no space: the characters that
    [snake_case_str] leaves alone. *)
Definition is_kept (c : ascii) : bool :=
  negb (PyStr.is_upper c) && negb (is_hyphen c) && negb (is_blank c).

(** A digit, a small letter or the underscore. *)
Definition is_snake (c : ascii) : bool :=
  let n := N_of_ascii c in
  ((48 <=? n) && (n <=? 57) || (97 <=? n) && (n <=? 122) || (n =? 95))%N.

(** A digit or a small letter. *)
Definition is_alnum_lower (c : ascii) : bool :=
  let n := N_of_ascii c in
  ((48 <=? n) && (n <=? 57) || (97 <=? n) && (n <=? 122))%N.

(** The option strings of the command line. *)
Definition option_strings : list string :=
  ["-sf"; "--settings_file"; "-rf"; "--results_folder"; "-a"; "--all_units"].

(** A command line made of options, each followed by its argument. *)
Definition words_of_pairs (pairs : list (string * string)) : list string :=
  pairs ≫= (λ p, [p.1; p.2]).

Definition is_option_pair (p : string * string) : Prop :=
  p.1 ∈ option_strings ∧ CommandLine.starts_with_hyphen p.2 = false.

(** The options stored one after the other, from left to right. *)
Definition store_pairs (pairs : list (string * string)) (args : Args) : Args :=
  foldl (λ a p, match CommandLine.option_of p.1 with
                | Some o => CommandLine.store o p.2 a
                | None => a
                end) args pairs.

(** ** Basic facts about the built-ins *)
Section PyFacts.
Context {V : Type}.
Implicit Types (l : list (string * V)) (m : gmap string V).

Lemma foldl_insert_snoc m l k v :
  foldl (λ m kv, <[kv.1 := kv.2]> m) m (l ++ [(k, v)])
  = <[k := v]> (foldl (λ m kv, <[kv.1 := kv.2]> m) m l).
Proof. by rewrite foldl_app. Qed.

Lemma dict_of_pairs_snoc l k v :
  Py.dict_of_pairs (l ++ [(k, v)]) = <[k := v]> (Py.dict_of_pairs l).
Proof. apply foldl_insert_snoc. Qed.

(** The last item with a given key is the one that is kept. *)
Lemma dict_of_pairs_last l1 l2 k v :
  k ∉ l2.*1 → Py.dict_of_pairs (l1 ++ (k, v) :: l2) !! k = Some v.
Proof.
  revert l1. induction l2 as [|[k' v'] l2 IH] using rev_ind; intros l1 Hk.
  - rewrite dict_of_pairs_snoc. apply lookup_insert_eq.
  - rewrite fmap_app in Hk. simpl in Hk.
    apply not_elem_of_app in Hk as [Hk Hk'].
    rewrite app_comm_cons, app_assoc, dict_of_pairs_snoc.
    rewrite lookup_insert_ne; [by apply IH|]. set_solver.
Qed.

Lemma dict_of_pairs_None l k :
  Py.dict_of_pairs l !! k = None ↔ k ∉ l.*1.
Proof.
  induction l as [|[k' v'] l IH] using rev_ind.
  - split; [set_solver|done].
  - rewrite dict_of_pairs_snoc, fmap_app, not_elem_of_app. simpl.
    destruct (decide (k' = k)) as [->|Hne].
    + rewrite lookup_insert_eq. split; [done|]. set_solver.
    + rewrite lookup_insert_ne by done. rewrite IH. set_solver.
Qed.

(** What a lookup in the built dict returns: the value of the last item
    that carries the key. *)
Lemma dict_of_pairs_Some l k v :
  Py.dict_of_pairs l !! k = Some v ↔
  ∃ l1 l2, l = l1 ++ (k, v) :: l2 ∧ k ∉ l2.*1.
Proof.
  split.
  - induction l as [|[k' v'] l IH] using rev_ind; [done|].
    rewrite dict_of_pairs_snoc.
    destruct (decide (k' = k)) as [->|Hne].
    + rewrite lookup_insert_eq. intros [= ->].
      exists l, []. split; [done|]. set_solver.
    + rewrite lookup_insert_ne by done. intros (l1 & l2 & -> & Hk)%IH.
      exists l1, (l2 ++ [(k', v')]). split; [by rewrite <-app_assoc|].
      rewrite fmap_app. set_solver.
  - intros (l1 & l2 & -> & Hk). by apply dict_of_pairs_last.
Qed.

Lemma dict_of_pairs_elem_of l k v :
  Py.dict_of_pairs l !! k = Some v → (k, v) ∈ l.
Proof. intros (l1 & l2 & -> & _)%dict_of_pairs_Some. set_solver. Qed.

Lemma dict_of_pairs_NoDup l k v :
  NoDup l.*1 → Py.dict_of_pairs l !! k = Some v ↔ (k, v) ∈ l.
Proof.
  intros Hnd. split; [apply dict_of_pairs_elem_of|].
  intros (l1 & l2 & ->)%list_elem_of_split.
  apply dict_of_pairs_last.
  rewrite fmap_app in Hnd. apply NoDup_app in Hnd as (_ & _ & Hnd).
  simpl in Hnd. by apply NoDup_cons in Hnd as [? _].
Qed.

Lemma dict_of_pairs_dom l :
  dom (Py.dict_of_pairs l) = list_to_set l.*1.
Proof.
  apply set_eq; intros k. rewrite elem_of_dom, elem_of_list_to_set.
  rewrite <-not_eq_None_Some, dict_of_pairs_None.
  destruct (decide (k ∈ l.*1)); naive_solver.
Qed.

(** Items built later take precedence over items built earlier. *)
Lemma dict_of_pairs_app l1 l2 k :
  Py.dict_of_pairs (l1 ++ l2) !! k
  = match Py.dict_of_pairs l2 !! k with
    | Some v => Some v
    | None => Py.dict_of_pairs l1 !! k
    end.
Proof.
  induction l2 as [|[k' v'] l2 IH] using rev_ind.
  - by rewrite app_nil_r.
  - rewrite app_assoc, !dict_of_pairs_snoc.
    destruct (decide (k' = k)) as [->|Hne].
    + by rewrite !lookup_insert_eq.
    + by rewrite !lookup_insert_ne.
Qed.

Lemma getitem_Some (d : list (string * V)) k v :
  NoDup d.*1 → Py.getitem d k = Some v ↔ (k, v) ∈ d.
Proof.
  induction d as [|[k' v'] d IH]; simpl; intros Hnd.
  - split; [done|]. by intros ?%elem_of_nil.
  - apply NoDup_cons in Hnd as [Hk' Hnd]. rewrite elem_of_cons.
    destruct (decide (k' = k)) as [->|Hne].
    + split; [naive_solver|]. intros [[= ->]|Hin]; [done|].
      destruct Hk'. apply list_elem_of_fmap. by exists (k, v).
    + rewrite IH by done. naive_solver.
Qed.
End PyFacts.

(** ** Sorting *)
Section Sorted.
Implicit Types l : list string.

Lemma sorted_Permutation l : Py.sorted l ≡ₚ l.
Proof. apply merge_sort_Permutation. Qed.

Lemma sorted_StronglySorted l : StronglySorted String.le (Py.sorted l).
Proof. apply (StronglySorted_merge_sort _). Qed.

(** The sorted list depends on the entries only, not on their order. *)
Lemma sorted_unique l1 l2 : l1 ≡ₚ l2 → Py.sorted l1 = Py.sorted l2.
Proof.
  intros Hp. apply (StronglySorted_unique String.le);
    [apply sorted_StronglySorted..|].
  by rewrite !sorted_Permutation.
Qed.

Lemma sorted_idempotent l : Py.sorted (Py.sorted l) = Py.sorted l.
Proof. apply sorted_unique, sorted_Permutation. Qed.

Lemma sorted_fixpoint l : StronglySorted String.le l → Py.sorted l = l.
Proof.
  intros Hs. apply (StronglySorted_unique String.le);
    [apply sorted_StronglySorted|done|apply sorted_Permutation].
Qed.

Lemma sorted_NoDup l : NoDup l → NoDup (Py.sorted l).
Proof. by rewrite sorted_Permutation. Qed.
End Sorted.

(** ** The Zone Map *)
Section ZoneMap.
Implicit Types zones : list string.

Lemma zone_pairs_keys zones : (zone_pairs zones).*1 = zones.
Proof.
  unfold zone_pairs. rewrite <-list_fmap_compose.
  etrans; [|apply (fst_zip zones (Py.range (length zones)))].
  - by apply list_fmap_ext; intros ? [].
  - unfold Py.range. by rewrite length_seq.
Qed.

Lemma zone_pairs_elem_of zones zone v :
  (zone, v) ∈ zone_pairs zones ↔
  ∃ i, zones !! i = Some zone ∧ v = pretty (i + 1).
Proof.
  unfold zone_pairs, Py.range, Py.fstring_int. rewrite list_elem_of_fmap. split.
  - intros ([z n] & [= -> ->] & Hin). simpl.
    apply list_elem_of_lookup in Hin as [i Hi].
    apply lookup_zip_with_Some in Hi as (z' & n' & [= <- <-] & Hz & Hn).
    apply lookup_seq in Hn as [-> _]. eauto.
  - intros (i & Hi & ->). exists (zone, i). split; [done|].
    apply list_elem_of_lookup. exists i.
    apply lookup_zip_with_Some. exists zone, i. split_and!; [done..|].
    apply lookup_seq. split; [done|]. by eapply lookup_lt_Some.
Qed.

Lemma zone_num_map_lookup zones zone v :
  NoDup zones →
  zone_num_map zones !! zone = Some v ↔
  ∃ i, zones !! i = Some zone ∧ v = pretty (i + 1).
Proof.
  intros Hnd. rewrite <-zone_pairs_elem_of.
  apply dict_of_pairs_NoDup. by rewrite zone_pairs_keys.
Qed.

Lemma zone_num_map_dom zones :
  dom (zone_num_map zones) = list_to_set zones.
Proof.
  unfold zone_num_map. by rewrite dict_of_pairs_dom, zone_pairs_keys.
Qed.

Lemma zone_num_map_size zones :
  NoDup zones → size (zone_num_map zones) = length zones.
Proof.
  intros Hnd. rewrite <-size_dom, zone_num_map_dom.
  by rewrite size_list_to_set.
Qed.
End ZoneMap.


(** C1. For settings whose [model_regions] are unique, the Zone Indexer
    leaves them in [settings] in lexicographic order (same entries, sorted,
    still unique) and numbers them by position: the region at position [i] of
    the sorted list (counted from 0) gets the index [i + 1] as a string, the
    Zone Map has these bindings and no others, and its size is the number of
    regions, so the indices are the contiguous range 1..n.  For
    ["b"; "a"; "c"] the Zone Map is {"a": "1", "b": "2", "c": "3"}. *)
Theorem zone_indexer_sorted_dense (settings : Settings) :
  NoDup (model_regions settings) →
  let zones := model_regions (zone_indexer settings).1.1 in
  let zmap := (zone_indexer settings).1.2 in
  zones ≡ₚ model_regions settings ∧
  StronglySorted String.le zones ∧ NoDup zones ∧
  (∀ i zone, zones !! i = Some zone → zmap !! zone = Some (pretty (i + 1))) ∧
  (∀ zone v, zmap !! zone = Some v →
     ∃ i, i < length zones ∧ zones !! i = Some zone ∧ v = pretty (i + 1)) ∧
  (∀ i, i < length zones → ∃ zone, zmap !! zone = Some (pretty (i + 1))) ∧
  dom zmap = list_to_set (model_regions settings) ∧
  size zmap = length (model_regions settings) ∧
  zone_num_map (Py.sorted ["b"; "a"; "c"])
  = {[ "a" := "1"; "b" := "2"; "c" := "3" ]}.
Proof.
  intros Hnd; simpl.
  pose proof (sorted_NoDup _ Hnd) as Hnd'.
  split_and!.
  - apply sorted_Permutation.
  - apply sorted_StronglySorted.
  - done.
  - intros i zone Hi. apply zone_num_map_lookup; eauto.
  - intros zone v (i & Hi & ->)%zone_num_map_lookup; [|done].
    exists i. split_and!; [by eapply lookup_lt_Some|done..].
  - intros i (zone & Hi)%lookup_lt_is_Some. exists zone.
    apply zone_num_map_lookup; eauto.
  - rewrite zone_num_map_dom. apply set_eq; intros z.
    by rewrite !elem_of_list_to_set, sorted_Permutation.
  - rewrite zone_num_map_size by done. by rewrite sorted_Permutation.
  - vm_compute. reflexivity.
Qed.

Lemma zone_indexer_sorted_dense_witness :
  (zone_indexer (mkSettings ["b"; "a"; "c"] [] [])).1.2 !! "b" = Some "2".
Proof.
  pose proof (zone_indexer_sorted_dense (mkSettings ["b"; "a"; "c"] [] [])) as H.
  simpl in H. destruct H as (_ & _ & _ & H & _).
  - repeat constructor; set_solver.
  - apply (H 1). vm_compute. reflexivity.
Defined.

(** C9. The Zone Indexer is a function of the set of model regions: two
    settings that list the same regions in any order (and agree elsewhere)
    get the same sorted settings, the same Zone Map and the same log record;
    and running the indexer again on the settings it returned gives the same
    result once more. *)
Theorem zone_indexer_deterministic (s1 s2 : Settings) :
  model_regions s1 ≡ₚ model_regions s2 →
  region_aggregations s1 = region_aggregations s2 →
  other_options s1 = other_options s2 →
  zone_indexer s1 = zone_indexer s2 ∧
  zone_indexer (zone_indexer s1).1.1 = zone_indexer s1.
Proof.
  intros Hp Ha Ho. unfold zone_indexer, sort_zones; simpl.
  rewrite (sorted_unique _ _ Hp), Ha, Ho, sorted_idempotent. done.
Qed.

Lemma zone_indexer_deterministic_witness :
  zone_indexer (mkSettings ["b"; "a"; "c"] [] [])
  = zone_indexer (mkSettings ["c"; "a"; "b"] [] []).
Proof.
  apply (zone_indexer_deterministic
           (mkSettings ["b"; "a"; "c"] [] []) (mkSettings ["c"; "a"; "b"] [] []));
    [|reflexivity..].
  simpl. apply (Permutation_cons_app ["c"; "a"] []). simpl.
  apply perm_swap.
Defined.

(** ** The Region Aggregator: the inverse of the aggregation mapping *)
Section ReverseDict.
Implicit Types d : list (string * list string).

Lemma member_pairs_aux d0 d :
  (∀ k vs, (k, vs) ∈ d → Py.getitem d0 k = Some vs) →
  (k ← Py.keys d; v ← default [] (Py.getitem d0 k); [(v, k)])
  = d ≫= pairs_of_item.
Proof.
  induction d as [|[k vs] d IH]; intros Hget; [done|].
  unfold Py.keys in *. rewrite fmap_cons, !bind_cons. f_equal.
  - simpl. rewrite (Hget k vs) by set_solver. unfold pairs_of_item. simpl.
    clear. induction vs as [|v vs IH]; [done|].
    by rewrite bind_cons, IH.
  - apply IH. intros. apply Hget. set_solver.
Qed.

(** On a dict (unique keys) the comprehension visits the items in order. *)
Lemma member_pairs_items d :
  NoDup d.*1 → member_pairs d = d ≫= pairs_of_item.
Proof.
  intros Hnd. apply member_pairs_aux. intros k vs. by apply getitem_Some.
Qed.

Lemma elem_of_pairs_of_item kvs m k :
  (m, k) ∈ pairs_of_item kvs ↔ k = kvs.1 ∧ m ∈ kvs.2.
Proof.
  unfold pairs_of_item. rewrite list_elem_of_fmap. naive_solver.
Qed.

Lemma elem_of_member_pairs d m k :
  NoDup d.*1 → (m, k) ∈ member_pairs d ↔ ∃ vs, (k, vs) ∈ d ∧ m ∈ vs.
Proof.
  intros Hnd. rewrite member_pairs_items by done.
  rewrite list_elem_of_bind. split.
  - intros ([k' vs] & [-> Hm]%elem_of_pairs_of_item & Hin). eauto.
  - intros (vs & Hin & Hm). exists (k, vs).
    by rewrite elem_of_pairs_of_item.
Qed.

Lemma pairs_of_item_keys kvs : (pairs_of_item kvs).*1 = kvs.2.
Proof.
  unfold pairs_of_item. rewrite <-list_fmap_compose.
  etrans; [|apply list_fmap_id]. by apply list_fmap_ext.
Qed.
End ReverseDict.

(** C2. On a dict [d] in which no member is listed under two aggregates,
    [reverse_dict_of_lists d] maps a name [m] to [k] exactly when [m] is
    listed under the key [k] of [d]: every member is mapped to its aggregate
    and nothing else is a key.  For {"X": ["p", "q"]} the result is
    {"p": "X", "q": "X"}. *)
Theorem reverse_dict_of_lists_inverse (d : list (string * list string)) :
  NoDup d.*1 →
  (∀ k1 k2 vs1 vs2 m,
     (k1, vs1) ∈ d → (k2, vs2) ∈ d → m ∈ vs1 → m ∈ vs2 → k1 = k2) →
  (∀ m k, reverse_dict_of_lists d !! m = Some k ↔ ∃ vs, (k, vs) ∈ d ∧ m ∈ vs) ∧
  reverse_dict_of_lists [("X", ["p"; "q"])] = {[ "p" := "X"; "q" := "X" ]}.
Proof.
  intros Hnd Hdisj. split; [|vm_compute; reflexivity].
  intros m k. unfold reverse_dict_of_lists. split.
  - intros Hin%dict_of_pairs_elem_of. by apply elem_of_member_pairs.
  - intros (vs & Hin & Hm).
    destruct (Py.dict_of_pairs (member_pairs d) !! m) as [k'|] eqn:Hk'.
    + pose proof Hk' as Hk''. apply dict_of_pairs_elem_of in Hk'.
      apply elem_of_member_pairs in Hk' as (vs' & Hin' & Hm'); [|done].
      f_equal. eauto.
    + apply dict_of_pairs_None in Hk'. destruct Hk'.
      apply list_elem_of_fmap. exists (m, k). split; [done|].
      apply elem_of_member_pairs; eauto.
Qed.

Lemma reverse_dict_of_lists_inverse_witness :
  reverse_dict_of_lists [("X", ["p"; "q"]); ("Y", ["r"])] !! "r" = Some "Y".
Proof.
  apply (reverse_dict_of_lists_inverse [("X", ["p"; "q"]); ("Y", ["r"])]).
  - repeat constructor; set_solver.
  - intros k1 k2 vs1 vs2 m H1 H2 Hm1 Hm2.
    repeat (apply elem_of_cons in H1 as [[= -> ->]|H1]);
      try (by apply elem_of_nil in H1);
      repeat (apply elem_of_cons in H2 as [[= -> ->]|H2]);
      try (by apply elem_of_nil in H2); try done; set_solver.
  - exists ["r"]. set_solver.
Defined.

(** C6. When a member [m] is listed under two different keys of the dict,
    [reverse_dict_of_lists] returns a dict all the same, and that dict maps
    [m] to the key that comes last in the iteration order among the keys
    listing it; the mapping to the earlier key is not kept. *)
Theorem reverse_dict_of_lists_last_wins
  (d1 d2 : list (string * list string)) (k0 k m : string) (vs0 vs : list string) :
  NoDup (d1 ++ (k, vs) :: d2).*1 →
  (k0, vs0) ∈ d1 → m ∈ vs0 →
  m ∈ vs →
  (∀ k' vs', (k', vs') ∈ d2 → m ∉ vs') →
  reverse_dict_of_lists (d1 ++ (k, vs) :: d2) !! m = Some k ∧
  reverse_dict_of_lists (d1 ++ (k, vs) :: d2) !! m ≠ Some k0.
Proof.
  intros Hnd Hin0 Hm0 Hm Hlater.
  assert (reverse_dict_of_lists (d1 ++ (k, vs) :: d2) !! m = Some k) as Hk.
  { unfold reverse_dict_of_lists. rewrite member_pairs_items by done.
    rewrite bind_app, bind_cons, app_assoc, dict_of_pairs_app.
    assert (Py.dict_of_pairs (d2 ≫= pairs_of_item) !! m = None) as ->.
    { apply dict_of_pairs_None. intros ([m' k'] & -> & Hin)%list_elem_of_fmap.
      apply list_elem_of_bind in Hin as ([k2 vs2] & [-> Hm2]%elem_of_pairs_of_item & Hin).
      by eapply Hlater. }
    rewrite dict_of_pairs_app.
    destruct (Py.dict_of_pairs (pairs_of_item (k, vs)) !! m) as [k'|] eqn:Hk'.
    - apply dict_of_pairs_elem_of, elem_of_pairs_of_item in Hk' as [-> _]. done.
    - apply dict_of_pairs_None in Hk'. by rewrite pairs_of_item_keys in Hk'. }
  split; [done|]. rewrite Hk. intros [= ->].
  rewrite fmap_app in Hnd. apply NoDup_app in Hnd as (_ & Hnd & _).
  apply (Hnd k0); [|set_solver].
  apply list_elem_of_fmap. by exists (k0, vs0).
Qed.

Lemma reverse_dict_of_lists_last_wins_witness :
  reverse_dict_of_lists [("X", ["p"; "q"]); ("Y", ["q"; "r"])] !! "q" = Some "Y".
Proof.
  apply (reverse_dict_of_lists_last_wins
           [("X", ["p"; "q"])] [] "X" "Y" "q" ["p"; "q"] ["q"; "r"]).
  - repeat constructor; set_solver.
  - set_solver.
  - set_solver.
  - set_solver.
  - intros k' vs' Hin. by apply elem_of_nil in Hin.
Defined.

(** ** The Region Aggregator: relabelling a region column *)
Section MapAggRegionNames.
Implicit Types (cols : list (cell * list cell)) (col : list cell).
Implicit Types (region_agg_map : gmap string string).

Lemma getitem_setitem_eq cols name col :
  getitem_col (setitem_col cols name col) name = Some col.
Proof.
  induction cols as [|[label old] cols IH]; simpl.
  - by rewrite bool_decide_eq_true_2.
  - destruct (label_is name label) eqn:Hl; simpl; by rewrite Hl.
Qed.

Lemma getitem_setitem_ne cols name name' col :
  name ≠ name' →
  getitem_col (setitem_col cols name col) name' = getitem_col cols name'.
Proof.
  intros Hne. induction cols as [|[label old] cols IH]; simpl.
  - by rewrite bool_decide_eq_false_2.
  - destruct (label_is name label) eqn:Hl; simpl; [|by rewrite IH].
    destruct label as [s| | |]; simpl in *; try done.
    apply bool_decide_eq_true in Hl as ->.
    by rewrite bool_decide_eq_false_2.
Qed.

(** Storing a column leaves every column with another label where it is. *)
Lemma setitem_col_other cols name col i label old :
  cols !! i = Some (label, old) → label_is name label = false →
  setitem_col cols name col !! i = Some (label, old).
Proof.
  revert i. induction cols as [|[label' old'] cols IH]; intros i; [done|].
  simpl. destruct i as [|i]; simpl.
  - intros [= -> ->] ->. done.
  - intros Hi Hl. destruct (label_is name label'); [done|]. by apply IH.
Qed.

Lemma setitem_col_labels cols name col :
  (setitem_col cols name col).*1
  = match getitem_col cols name with
    | Some _ => cols.*1
    | None => cols.*1 ++ [Str name]
    end.
Proof.
  induction cols as [|[label old] cols IH]; [done|].
  cbn [setitem_col getitem_col].
  destruct (label_is name label); [done|].
  rewrite !fmap_cons, IH. by destruct (getitem_col cols name).
Qed.

(** The two statements of [map_agg_region_names] on the original column:
    the selected cells are replaced by their images and the others stay. *)
Lemma loc_set_map_dict region_agg_map col :
  loc_set (isin col (dom region_agg_map)) col
    (map_dict region_agg_map (loc_get (isin col (dom region_agg_map)) col))
  = (λ c, match c with
          | Str s => match region_agg_map !! s with
                     | Some a => Str a
                     | None => c
                     end
          | _ => c
          end) <$> col.
Proof.
  induction col as [|c col IH]; [done|].
  rewrite !fmap_cons. cbn [isin fmap list_fmap loc_get loc_set].
  fold (isin col (dom region_agg_map)).
  destruct c as [s|x|z|y]; cbn [loc_get loc_set]; [|by rewrite <-IH..].
  case_bool_decide as Hs.
  - apply elem_of_dom in Hs as [a Ha].
    cbn [map_dict fmap list_fmap]. rewrite Ha.
    fold (map_dict region_agg_map). by rewrite <-IH.
  - apply not_elem_of_dom in Hs. rewrite Hs. by rewrite <-IH.
Qed.

(** What the function does, in one equation. *)
Lemma map_agg_region_names_eq (heap : gmap ref DataFrame) df d0
  region_agg_map original_col_name new_col_name col :
  heap !! df = Some d0 →
  getitem_col (columns d0) original_col_name = Some col →
  map_agg_region_names heap df region_agg_map original_col_name new_col_name
  = Some (df, <[df := mkDataFrame (index_names d0) (index d0)
                (setitem_col (setitem_col (columns d0) new_col_name col)
                   new_col_name
                   ((λ c, match c with
                          | Str s => match region_agg_map !! s with
                                     | Some a => Str a
                                     | None => c
                                     end
                          | _ => c
                          end) <$> col))]> heap).
Proof.
  intros Hdf Hcol. unfold map_agg_region_names.
  rewrite Hdf. simpl. rewrite Hcol. simpl.
  assert (getitem_col (setitem_col (columns d0) new_col_name col)
            original_col_name = Some col) as ->.
  { destruct (decide (new_col_name = original_col_name)) as [->|Hne].
    - apply getitem_setitem_eq.
    - by rewrite getitem_setitem_ne. }
  simpl. rewrite getitem_setitem_eq. simpl.
  by rewrite loc_set_map_dict.
Qed.

Lemma setitem_col_twice cols name col col' :
  setitem_col (setitem_col cols name col) name col'
  = setitem_col cols name col'.
Proof.
  induction cols as [|[label old] cols IH]; simpl.
  - by rewrite bool_decide_eq_true_2.
  - destruct (label_is name label) eqn:Hl; simpl; rewrite Hl; [done|].
    by rewrite IH.
Qed.
End MapAggRegionNames.

(** C3. On a dataframe that has the original region column,
    [map_agg_region_names] succeeds and leaves a column [new_col_name] of the
    same length in which a row whose original value is a key of the member
    map holds the aggregate name the map gives, and a row whose original
    value is not a key holds the original value.  With the member map
    {"p": "X", "q": "X"} and the original values ["p", "z"] the new column is
    ["X", "z"]. *)
Theorem map_agg_region_names_new_column (heap : gmap ref DataFrame) (df : ref)
  (d0 : DataFrame) (region_agg_map : gmap string string)
  (original_col_name new_col_name : string) (col : list cell) :
  heap !! df = Some d0 →
  getitem_col (columns d0) original_col_name = Some col →
  (∃ heap' d' new_col,
     map_agg_region_names heap df region_agg_map original_col_name new_col_name
     = Some (df, heap') ∧
     heap' !! df = Some d' ∧
     getitem_col (columns d') new_col_name = Some new_col ∧
     length new_col = length col ∧
     ∀ i c, col !! i = Some c →
       (∀ s a, c = Str s → region_agg_map !! s = Some a →
          new_col !! i = Some (Str a)) ∧
       ((∀ s, c = Str s → region_agg_map !! s = None) →
          new_col !! i = Some c)) ∧
  (let d := mkDataFrame [] [[Int 0]; [Int 1]] [(Str "region", [Str "p"; Str "z"])] in
   (map_agg_region_names {[ 1%positive := d ]} 1%positive
      {[ "p" := "X"; "q" := "X" ]} "region" "model_region")
   = Some (1%positive,
           {[ 1%positive :=
                mkDataFrame [] [[Int 0]; [Int 1]]
                  [(Str "region", [Str "p"; Str "z"]);
                   (Str "model_region", [Str "X"; Str "z"])] ]})).
Proof.
  intros Hdf Hcol. split; [|vm_compute; reflexivity].
  eexists _, _, _. split_and!.
  - by eapply map_agg_region_names_eq.
  - apply lookup_insert_eq.
  - simpl. apply getitem_setitem_eq.
  - by rewrite length_fmap.
  - intros i c Hi. rewrite list_lookup_fmap, Hi. simpl. split.
    + intros s a -> Ha. by rewrite Ha.
    + intros Hnone. destruct c as [s| | |]; [|done..].
      by rewrite (Hnone s eq_refl).
Qed.

Lemma map_agg_region_names_new_column_witness :
  ∃ heap',
    map_agg_region_names
      {[ 1%positive := mkDataFrame [] [[Int 0]] [(Str "region", [Str "q"])] ]}
      1%positive {[ "p" := "X"; "q" := "X" ]} "region" "model_region"
    = Some (1%positive, heap').
Proof.
  destruct (map_agg_region_names_new_column
              {[ 1%positive := mkDataFrame [] [[Int 0]] [(Str "region", [Str "q"])] ]}
              1%positive
              (mkDataFrame [] [[Int 0]] [(Str "region", [Str "q"])])
              {[ "p" := "X"; "q" := "X" ]} "region" "model_region" [Str "q"])
    as [(heap' & d' & new_col & H & _) _].
  - vm_compute. reflexivity.
  - vm_compute. reflexivity.
  - by exists heap'.
Defined.

(** C10. A successful call of [map_agg_region_names] returns the reference
    it was given and updates the dataframe behind it in place: no other
    object of the heap changes, the row index and its names are the same,
    every column whose label is not [new_col_name] keeps its position and
    its cells (so the original column does when its name differs from the
    new one), and the column labels are the old ones, followed by
    [new_col_name] when that column was not there before. *)
Theorem map_agg_region_names_in_place (heap heap' : gmap ref DataFrame)
  (df r : ref) (region_agg_map : gmap string string)
  (original_col_name new_col_name : string) :
  map_agg_region_names heap df region_agg_map original_col_name new_col_name
  = Some (r, heap') →
  r = df ∧
  (∀ r', r' ≠ df → heap' !! r' = heap !! r') ∧
  ∃ d0 d',
    heap !! df = Some d0 ∧ heap' !! df = Some d' ∧
    index d' = index d0 ∧ index_names d' = index_names d0 ∧
    (∀ i label col, columns d0 !! i = Some (label, col) →
       label_is new_col_name label = false →
       columns d' !! i = Some (label, col)) ∧
    (∀ name, name ≠ new_col_name →
       getitem_col (columns d') name = getitem_col (columns d0) name) ∧
    (original_col_name ≠ new_col_name →
       getitem_col (columns d') original_col_name
       = getitem_col (columns d0) original_col_name) ∧
    (columns d').*1
    = match getitem_col (columns d0) new_col_name with
      | Some _ => (columns d0).*1
      | None => (columns d0).*1 ++ [Str new_col_name]
      end.
Proof.
  intros Hcall.
  destruct (heap !! df) as [d0|] eqn:Hdf;
    [|by unfold map_agg_region_names in Hcall; rewrite Hdf in Hcall].
  destruct (getitem_col (columns d0) original_col_name) as [col|] eqn:Hcol;
    [|by unfold map_agg_region_names in Hcall;
         rewrite Hdf in Hcall; simpl in Hcall; rewrite Hcol in Hcall].
  rewrite (map_agg_region_names_eq _ _ _ _ _ _ _ Hdf Hcol) in Hcall.
  injection Hcall as <- <-. rewrite setitem_col_twice.
  split; [done|]. split; [by intros r' Hr'; rewrite lookup_insert_ne|].
  eexists d0, _. split_and!; [done|apply lookup_insert_eq|done..| | | |]; simpl.
  - intros i label old Hi Hl. by apply setitem_col_other.
  - intros name Hne. by apply getitem_setitem_ne.
  - intros Hne. by apply getitem_setitem_ne.
  - apply setitem_col_labels.
Qed.

Lemma map_agg_region_names_in_place_witness :
  let d0 := mkDataFrame [] [[Int 0]; [Int 1]]
              [(Str "region", [Str "p"; Str "z"])] in
  let d' := mkDataFrame [] [[Int 0]; [Int 1]]
              [(Str "region", [Str "p"; Str "z"]);
               (Str "model_region", [Str "X"; Str "z"])] in
  map_agg_region_names {[ 1%positive := d0 ]} 1%positive
    {[ "p" := "X"; "q" := "X" ]} "region" "model_region"
  = Some (1%positive, {[ 1%positive := d' ]}) ∧
  index d' = index d0 ∧
  getitem_col (columns d') "region" = getitem_col (columns d0) "region".
Proof.
  intros d0 d'.
  assert (map_agg_region_names {[ 1%positive := d0 ]} 1%positive
            {[ "p" := "X"; "q" := "X" ]} "region" "model_region"
          = Some (1%positive, {[ 1%positive := d' ]})) as Hcall
    by (vm_compute; reflexivity).
  split; [exact Hcall|].
  destruct (map_agg_region_names_in_place _ _ _ _ _ _ _ Hcall)
    as (_ & _ & d0' & d'' & H0 & H' & Hindex & _ & _ & _ & Horig & _).
  rewrite lookup_singleton_eq in H0. injection H0 as <-.
  rewrite lookup_singleton_eq in H'. injection H' as <-.
  split; [exact Hindex|]. by apply Horig.
Defined.

(** ** The run: validation, settings and the order of the stages *)

Section Run.
Context {Gdf : Type}.
Variable GeneratorClusters : Settings → option (DataFrame * DataFrame * Gdf).
Variable load_curves : Settings → option DataFrame.
Variable agg_transmission_constraints : Settings → option DataFrame.
Variable transmission_line_distance :
  DataFrame → Gdf → Settings → option DataFrame.
Variable repr_float : float → string.
Variable git_hash : string.

Abbreviation main := (main GeneratorClusters load_curves
                    agg_transmission_constraints transmission_line_distance
                    repr_float git_hash).
Abbreviation build_tables := (build_tables GeneratorClusters load_curves
                    agg_transmission_constraints transmission_line_distance).

Lemma all_valid_regions_union ipm_regions settings region :
  region ∈ all_valid_regions ipm_regions settings ↔
  region ∈ ipm_regions ∨ region ∈ (region_aggregations settings).*1.
Proof. unfold all_valid_regions, Py.keys. apply elem_of_app. Qed.

Lemma all_good_regions ipm_regions settings :
  Py.all (good_regions ipm_regions settings) = true ↔
  Forall (λ region, region ∈ ipm_regions
                    ∨ region ∈ (region_aggregations settings).*1)
    (model_regions settings).
Proof.
  unfold Py.all, good_regions.
  induction (model_regions settings) as [|region regions IH].
  - split; [constructor|done].
  - rewrite fmap_cons, Forall_cons, <-IH. cbn [forallb id].
    rewrite andb_true_iff, bool_decide_eq_true, all_valid_regions_union.
    done.
Qed.



(** The run after the settings are loaded, with the validator's records
    singled out: nothing else depends on the reference regions. *)
Lemma main_loaded args yaml_files settings :
  load_settings yaml_files (settings_file args) = Some settings →
  ∃ rest written completed,
    ∀ ipm_regions,
      main args yaml_files ipm_regions
      = mkOutcome
          ([(INFO, "Current git hash is " +:+ git_hash);
            (INFO, "Reading settings file");
            (INFO, "Initiating PUDL connections")]
           ++ validate_regions ipm_regions settings
           ++ (INFO, "Sorted zones are "
                     +:+ Py.join ", " (Py.sorted (model_regions settings)))
              :: rest)
          (Some (sort_zones settings)) written completed
      ∧ warnings rest = []
      ∧ (is_Some (build_tables (sort_zones settings)
                    (zone_num_map (Py.sorted (model_regions settings)))) →
         rest = [(INFO, "Write GenX input files")] ∧ written ≠ [])
      ∧ (build_tables (sort_zones settings)
           (zone_num_map (Py.sorted (model_regions settings))) = None →
         rest = [] ∧ written = [] ∧ completed = false).
Proof.
  intros Hload. unfold ExtractPudlData.main. rewrite Hload.
  unfold zone_indexer. cbn [model_regions sort_zones].
  destruct (build_tables _ _) as [[[[gen_clusters gc_all_units] load] transmission]|]
    eqn:Hbuild.
  - destruct (load_csv repr_float load) as [load_file|];
      eexists [(INFO, "Write GenX input files")], _, _; intros ipm;
      (split_and!; [by rewrite <-!app_assoc|done| |done]);
      intros _; (split; [done|]); by destruct (all_units args).
  - exists [], [], false. intros ipm. split_and!; [|done| |done].
    + by rewrite <-!app_assoc.
    + by intros [? [=]].
Qed.


Lemma get_level_values_once (df : DataFrame) name before after :
  index_names df = before ++ name :: after →
  name ∉ before → name ∉ after →
  get_level_values df name = Some (level_values (length before) (index df)).
Proof.
  intros Hnames Hb Ha. unfold get_level_values.
  assert (list_find (λ n, n = name) (index_names df)
          = Some (length before, name)) as ->.
  { rewrite Hnames. apply list_find_Some. split_and!.
    - by rewrite list_lookup_middle.
    - done.
    - intros j y Hj Hlt ->. apply Hb.
      rewrite lookup_app_l in Hj by done. by eapply list_elem_of_lookup_2. }
  cbn [mbind option_bind fst]. rewrite Hnames.
  rewrite drop_app_ge by lia.
  replace (S (length before) - length before) with 1 by lia.
  cbn [drop]. by rewrite decide_False.
Qed.




(** C5 (amended). After [load_settings] returns, the run changes the
    settings in one way only: [model_regions] is replaced by its sorted
    copy, the same entries in lexicographic order.  The other keys keep
    their values, the settings are the loaded ones when [model_regions]
    was loaded sorted, and every builder is handed the settings in that
    state: the run is the same for builders that agree on them. *)
Theorem settings_changed_only_by_sort (args : Args)
  (yaml_files : gmap string Settings) (ipm_regions : list string)
  (settings : Settings) :
  load_settings yaml_files (settings_file args) = Some settings →
  final_settings (main args yaml_files ipm_regions)
  = Some (sort_zones settings) ∧
  model_regions (sort_zones settings) ≡ₚ model_regions settings ∧
  StronglySorted String.le (model_regions (sort_zones settings)) ∧
  region_aggregations (sort_zones settings) = region_aggregations settings ∧
  other_options (sort_zones settings) = other_options settings ∧
  (StronglySorted String.le (model_regions settings) →
   sort_zones settings = settings) ∧
  (∀ GeneratorClusters' load_curves' agg_transmission_constraints'
     transmission_line_distance',
     GeneratorClusters' (sort_zones settings)
     = GeneratorClusters (sort_zones settings) →
     load_curves' (sort_zones settings) = load_curves (sort_zones settings) →
     agg_transmission_constraints' (sort_zones settings)
     = agg_transmission_constraints (sort_zones settings) →
     (∀ transmission gdf,
        transmission_line_distance' transmission gdf (sort_zones settings)
        = transmission_line_distance transmission gdf (sort_zones settings)) →
     ExtractPudlData.main GeneratorClusters' load_curves'
       agg_transmission_constraints' transmission_line_distance'
       repr_float git_hash args yaml_files ipm_regions
     = main args yaml_files ipm_regions).
Proof.
  intros Hload.
  destruct (main_loaded args yaml_files settings Hload)
    as (rest & files & done_ & Hmain).
  destruct (Hmain ipm_regions) as (Hout & _).
  split_and!.
  - by rewrite Hout.
  - apply sorted_Permutation.
  - apply sorted_StronglySorted.
  - done.
  - done.
  - intros Hs. destruct settings as [regions aggs others].
    unfold sort_zones; simpl in *. by rewrite sorted_fixpoint.
  - intros GC' lc' agg' tld' HGC Hlc Hagg Htld.
    unfold ExtractPudlData.main. rewrite Hload.
    unfold zone_indexer. cbn [model_regions sort_zones].
    fold (sort_zones settings).
    unfold ExtractPudlData.build_tables. rewrite HGC, Hlc, Hagg.
    destruct (GeneratorClusters _) as [[[gen_clusters units] gdf]|]; [|done].
    cbn [mbind option_bind].
    destruct (add_zone_column _ _); [|done]. cbn [mbind option_bind].
    destruct (load_curves _); [|done]. cbn [mbind option_bind].
    destruct (set_load_columns _ _); [|done]. cbn [mbind option_bind].
    destruct (agg_transmission_constraints _); [|done].
    cbn [mbind option_bind]. by rewrite Htld.
Qed.
End Run.



(** C5, as stated, fails: a complete run whose settings list the regions
    as ["b"; "a"] ends with settings that are not the loaded ones. *)
Lemma settings_immutable_counterexample :
  completed (demo_run ["b"; "a"] ["a"; "b"]) = true ∧
  final_settings (demo_run ["b"; "a"] ["a"; "b"])
  ≠ load_settings {[ "settings.yml" := mkSettings ["b"; "a"] [] [] ]}
      "settings.yml".
Proof.
  split; [vm_compute; reflexivity|].
  vm_compute. intros [=].
Qed.

Lemma settings_changed_only_by_sort_witness :
  final_settings (demo_run ["b"; "a"] ["a"; "b"])
  = Some (mkSettings ["a"; "b"] [] []).
Proof.
  destruct (settings_changed_only_by_sort (demo_clusters f_100_12345)
              demo_load demo_transmission
              (λ transmission _ _, Some transmission)
              (λ _, "") "0000000" (mkArgs "settings.yml" "demo" false)
              {[ "settings.yml" := mkSettings ["b"; "a"] [] [] ]} ["a"; "b"]
              (mkSettings ["b"; "a"] [] []))
    as (Hfinal & _).
  - vm_compute. reflexivity.
  - unfold demo_run, demo_run_with. rewrite Hfinal. vm_compute. reflexivity.
Defined.

(** ** Floats: truncation and fixed-point formatting *)

Section Floats.
Implicit Types (v : exact) (x : float).

Lemma exact_of_SF_wf sf v :
  exact_of_SF sf = Some v → (0 ≤ num v ∧ 0 < den v)%Z.
Proof.
  destruct sf as [s|s| |s m e]; try done; intros [= <-]; simpl; [lia|].
  case_decide; simpl.
  - split; [|lia]. apply Z.mul_nonneg_nonneg; [lia|]. by apply Z.pow_nonneg.
  - split; [lia|]. apply Z.pow_pos_nonneg; lia.
Qed.

Lemma exact_of_wf x v : exact_of x = Some v → (0 ≤ num v ∧ 0 < den v)%Z.
Proof. apply exact_of_SF_wf. Qed.

Lemma trunc_truncated v :
  (0 ≤ num v)%Z → (0 < den v)%Z → truncated v (trunc v).
Proof.
  intros Hn Hd. unfold truncated, trunc.
  pose proof (Z.div_pos (num v) (den v) Hn Hd) as Ha.
  pose proof (Z.mul_div_le (num v) (den v) Hd) as Hle.
  pose proof (Z.mul_succ_div_gt (num v) (den v) Hd) as Hgt.
  destruct (neg v); rewrite ?Z.abs_opp, Z.abs_eq by done; lia.
Qed.

Lemma round_half_even_nearest (n d : Z) :
  (0 ≤ n)%Z → (0 < d)%Z →
  (0 ≤ round_half_even n d)%Z ∧
  (2 * Z.abs (round_half_even n d * d - n) ≤ d)%Z ∧
  ((2 * Z.abs (round_half_even n d * d - n) = d)%Z →
   Z.even (round_half_even n d)).
Proof.
  intros Hn Hd. unfold round_half_even.
  pose proof (Z.div_mod n d ltac:(lia)) as Hdm.
  pose proof (Z.mod_pos_bound n d Hd) as Hr.
  pose proof (Z.div_pos n d Hn Hd) as Hq.
  set (q := (n `div` d)%Z) in *. set (r := (n `mod` d)%Z) in *.
  destruct (Z.ltb_spec (2 * r) d) as [Hlt|Hge].
  - split_and!; [done|lia|lia].
  - destruct (Z.ltb_spec d (2 * r)) as [Hlt|Hge'].
    + split_and!; [lia|lia|lia].
    + destruct (Z.even q) eqn:He.
      * split_and!; [lia|lia|]. intros _. by rewrite He.
      * split_and!; [lia|lia|]. intros _.
        rewrite Z.even_add, He. done.
Qed.

Lemma scaled_nearest p v :
  (0 ≤ num v)%Z → (0 < den v)%Z → nearest p v (scaled p v).
Proof.
  intros Hn Hd. unfold nearest, scaled.
  apply round_half_even_nearest; [|done].
  apply Z.mul_nonneg_nonneg; [done|]. apply Z.pow_nonneg. lia.
Qed.

Lemma string_length_app (s1 s2 : string) :
  String.length (s1 +:+ s2) = String.length s1 + String.length s2.
Proof. induction s1 as [|c s1 IH]; simpl; [done|]. by rewrite IH. Qed.

Lemma fixed_digits_length p (n : N) : String.length (fixed_digits p n) = p.
Proof.
  revert n. induction p as [|p IH]; intros n; simpl; [done|].
  rewrite string_length_app, IH. simpl. lia.
Qed.

Lemma all_digits_app (s1 s2 : string) :
  all_digits (s1 +:+ s2) = all_digits s1 && all_digits s2.
Proof.
  induction s1 as [|c s1 IH]; simpl; [done|]. by rewrite IH, andb_assoc.
Qed.

Lemma pretty_N_char_digit (d : N) :
  (d < 10)%N →
  (N_of_ascii (pretty_N_char d) - 48)%N = d ∧
  (48 ≤ N_of_ascii (pretty_N_char d) ≤ 57)%N.
Proof.
  intros Hd.
  assert (d = 0 ∨ d = 1 ∨ d = 2 ∨ d = 3 ∨ d = 4 ∨ d = 5 ∨ d = 6 ∨ d = 7
          ∨ d = 8 ∨ d = 9)%N as Hcases by lia.
  destruct_or!; subst d; vm_compute; (split; [done|split; discriminate]).
Qed.

Lemma fixed_digits_all_digits p (n : N) : all_digits (fixed_digits p n) = true.
Proof.
  revert n. induction p as [|p IH]; intros n; simpl; [done|].
  rewrite all_digits_app, IH. simpl.
  destruct (pretty_N_char_digit (n `mod` 10)%N) as [_ Hc].
  { apply N.mod_lt. lia. }
  by rewrite bool_decide_eq_true_2.
Qed.

Lemma digits_value_from_app acc (s1 s2 : string) :
  digits_value_from acc (s1 +:+ s2)
  = digits_value_from (digits_value_from acc s1) s2.
Proof. revert acc. induction s1 as [|c s1 IH]; intros acc; simpl; auto. Qed.

Lemma digits_value_from_acc acc (s : string) :
  digits_value_from acc s
  = (acc * 10 ^ N.of_nat (String.length s) + digits_value_from 0 s)%N.
Proof.
  revert acc. induction s as [|c s IH]; intros acc.
  - simpl. lia.
  - cbn [digits_value_from String.length].
    rewrite IH, (IH (0 * 10 + _)%N), Nat2N.inj_succ, N.pow_succ_r'. lia.
Qed.

(** The [p] digits written are the last [p] decimal digits of the number. *)
Lemma fixed_digits_value p (n : N) :
  digits_value (fixed_digits p n) = (n `mod` 10 ^ N.of_nat p)%N.
Proof.
  unfold digits_value. revert n. induction p as [|p IH]; intros n.
  - simpl. by rewrite N.mod_1_r.
  - cbn [fixed_digits]. rewrite digits_value_from_app, IH.
    cbn [digits_value_from].
    destruct (pretty_N_char_digit (n `mod` 10)%N) as [-> _].
    { apply N.mod_lt. lia. }
    rewrite Nat2N.inj_succ, N.pow_succ_r', N.Div0.mod_mul_r. lia.
Qed.

(** The format of a finite number: sign, integer part, point and exactly
    [p] digits, for [p] at least 1. *)
Lemma percent_f_finite p x v :
  exact_of x = Some v →
  percent_f (S p) x
  = (if neg v then "-" else "")
    +:+ pretty (Z.to_N (scaled (S p) v) `div` 10 ^ N.of_nat (S p))%N
    +:+ "."
    +:+ fixed_digits (S p) (Z.to_N (scaled (S p) v) `mod` 10 ^ N.of_nat (S p))%N.
Proof.
  unfold exact_of, percent_f. intros Hv.
  destruct (Prim2SF x) as [s|s| |s m e]; try done; by rewrite Hv.
Qed.

Lemma is_nan_exact_of x v : exact_of x = Some v → is_nan x = false.
Proof. unfold exact_of, is_nan. by destruct (Prim2SF x). Qed.

Lemma astype_int_float x v :
  exact_of x = Some v →
  astype_int true (Num x) = Some (Int (float_to_int64 v)).
Proof. intros Hv. simpl. by rewrite Hv. Qed.

Lemma astype_int_non_finite float_dtype c :
  non_finite c → astype_int float_dtype c = None.
Proof. intros (x & [-> | ->] & Hx); simpl; by rewrite Hx. Qed.
End Floats.

(** ** The tables on their way to the files *)

Section Tables.
Implicit Types (load df : DataFrame) (zmap : gmap string string).
Implicit Types (col : list cell).

Lemma rename_load_columns_labels zmap load :
  (columns (rename_load_columns zmap load)).*1
  = radd_str "Load_MW_z" (map_dict zmap (columns load).*1).
Proof.
  unfold rename_load_columns; simpl. apply fst_zip.
  unfold radd_str, map_dict. by rewrite !length_fmap.
Qed.

Lemma rename_load_columns_cells zmap load :
  (columns (rename_load_columns zmap load)).*2 = (columns load).*2.
Proof.
  unfold rename_load_columns; simpl. apply snd_zip.
  unfold radd_str, map_dict. by rewrite !length_fmap.
Qed.

Lemma zone_label_lookup zmap (cols : list string) j c idx :
  cols !! j = Some c → zmap !! c = Some idx →
  radd_str "Load_MW_z" (map_dict zmap (Str <$> cols)) !! j
  = Some (Str ("Load_MW_z" +:+ idx)).
Proof.
  intros Hj Hc. unfold radd_str, map_dict.
  rewrite !list_lookup_fmap, Hj. simpl. by rewrite Hc.
Qed.

Lemma finite_floats_cells df :
  finite_floats df ↔
  Forall (Forall (λ c, ∃ x v, c = Num x ∧ exact_of x = Some v)) (columns df).*2.
Proof. unfold finite_floats. by rewrite Forall_fmap. Qed.

Lemma is_float_array_finite col :
  col ≠ [] →
  Forall (λ c, ∃ x v, c = Num x ∧ exact_of x = Some v) col →
  is_float_array col = true.
Proof.
  intros Hne Hfin. destruct col as [|c col]; [done|].
  unfold is_float_array. apply forallb_forall. intros c' Hc'%list_elem_of_In.
  rewrite Forall_forall in Hfin.
  by destruct (Hfin c' Hc') as (x & v & -> & _).
Qed.

Lemma mapM_astype_int_finite col :
  Forall (λ c, ∃ x v, c = Num x ∧ exact_of x = Some v) col →
  ∃ out, mapM (astype_int true) col = Some out ∧
         ∀ i x v, col !! i = Some (Num x) → exact_of x = Some v →
                  out !! i = Some (Int (float_to_int64 v)).
Proof.
  induction 1 as [|c col (x & v & -> & Hv) _ (out & Hout & Hcells)].
  - by exists [].
  - exists (Int (float_to_int64 v) :: out). split.
    + cbn [mapM]. rewrite (astype_int_float x v Hv). cbn [mbind option_bind].
      by rewrite Hout.
    + intros [|i] x' v' Hi Hv'; simpl in *; [|by eapply Hcells].
      injection Hi as <-. congruence.
Qed.

(** The cast of a column of finite floats: nothing is raised, and every
    cell is cast as a [float64]. *)
Lemma astype_int_column_finite col :
  Forall (λ c, ∃ x v, c = Num x ∧ exact_of x = Some v) col →
  ∃ out, astype_int_column col = Some out ∧
         ∀ i x v, col !! i = Some (Num x) → exact_of x = Some v →
                  out !! i = Some (Int (float_to_int64 v)).
Proof.
  intros Hfin. unfold astype_int_column.
  destruct (decide (col = [])) as [->|Hne]; [by exists []|].
  rewrite (is_float_array_finite col Hne Hfin).
  by apply mapM_astype_int_finite.
Qed.

Lemma astype_int_frame_finite load :
  finite_floats load →
  ∃ out, astype_int_frame load = Some out ∧
    index_names out = index_names load ∧ index out = index load ∧
    (columns out).*1 = (columns load).*1 ∧
    ∀ j col i x v,
      (columns load).*2 !! j = Some col → col !! i = Some (Num x) →
      exact_of x = Some v →
      ∃ col', (columns out).*2 !! j = Some col' ∧
              col' !! i = Some (Int (float_to_int64 v)).
Proof.
  unfold finite_floats, astype_int_frame. intros Hfin.
  assert (∃ cols,
            mapM (λ lc : cell * list cell,
                    col ← astype_int_column lc.2; Some (lc.1, col))
              (columns load) = Some cols ∧
            cols.*1 = (columns load).*1 ∧
            ∀ j col i x v,
              (columns load).*2 !! j = Some col → col !! i = Some (Num x) →
              exact_of x = Some v →
              ∃ col', cols.*2 !! j = Some col' ∧
                      col' !! i = Some (Int (float_to_int64 v)))
    as (cols & -> & Hlabels & Hcells).
  { induction Hfin as [|[label col] rest Hcol _ (cols & Hcols & Hl & Hc)].
    - exists []. split_and!; [done..|]. by intros j col i x v.
    - simpl in Hcol.
      destruct (astype_int_column_finite col Hcol) as (col' & Hcol' & Hcast).
      exists ((label, col') :: cols). split_and!.
      + cbn [mapM snd fst]. rewrite Hcol'. cbn [mbind option_bind].
        by rewrite Hcols.
      + by rewrite !fmap_cons, Hl.
      + intros [|j] col0 i x v Hj Hi Hv; simpl in *.
        * injection Hj as <-. exists col'. split; [done|]. by eapply Hcast.
        * by eapply Hc. }
  eexists. split; [done|]. by split_and!.
Qed.

(** A cell that [astype(int)] rejects makes the cast of the table fail. *)
Lemma astype_int_frame_None load label col c :
  (label, col) ∈ columns load → c ∈ col → non_finite c →
  astype_int_frame load = None.
Proof.
  intros Hcol Hc Hnone. unfold astype_int_frame.
  destruct (mapM _ (columns load)) as [cols|] eqn:Hcols; [|done].
  exfalso. assert (is_Some (mapM (λ lc : cell * list cell,
                      col ← astype_int_column lc.2; Some (lc.1, col))
                    (columns load))) as Hs by (by rewrite Hcols).
  apply mapM_is_Some in Hs. rewrite Forall_forall in Hs.
  destruct (Hs _ Hcol) as [x Hx]. simpl in Hx.
  destruct (astype_int_column col) as [col'|] eqn:Hcol'; [|done].
  unfold astype_int_column in Hcol'.
  assert (is_Some (mapM (astype_int (is_float_array col)) col)) as Hs'
    by (by rewrite Hcol').
  apply mapM_is_Some in Hs'. rewrite Forall_forall in Hs'.
  destruct (Hs' _ Hc) as [? Hc'].
  by rewrite (astype_int_non_finite _ _ Hnone) in Hc'.
Qed.

Lemma csv_field_finite p repr x v :
  exact_of x = Some v →
  written_with (S p) v (csv_field (percent_f (S p)) repr true (Num x)).
Proof.
  intros Hv. exists (scaled (S p) v).
  destruct (exact_of_wf _ _ Hv) as [Hn Hd].
  split; [by apply scaled_nearest|]. cbv zeta. split_and!.
  - cbn [csv_field]. rewrite (is_nan_exact_of _ _ Hv).
    by apply percent_f_finite.
  - apply fixed_digits_length.
  - apply fixed_digits_all_digits.
  - by rewrite fixed_digits_value, N.Div0.mod_mod.
Qed.

(** The field that [to_csv] writes for the cell of row [i] in column [j]. *)
Lemma to_csv_cell float_format repr df i j labels col c :
  index df !! i = Some labels → (columns df).*2 !! j = Some col →
  col !! i = Some c →
  ∃ row, to_csv float_format repr df !! S i = Some row ∧
         row !! (length labels + j)
         = Some (csv_field float_format repr (is_float_array col) c).
Proof.
  intros Hi Hj Hc. unfold to_csv. eexists. split.
  - rewrite lookup_cons, list_lookup_imap, Hi. done.
  - rewrite lookup_app_r by (rewrite length_imap; lia).
    rewrite length_imap, Nat.add_comm, Nat.add_sub.
    rewrite list_lookup_fmap in Hj. rewrite list_lookup_fmap.
    destruct (columns df !! j) as [[label col']|]; [|done].
    injection Hj as ->. simpl. unfold format_values.
    by rewrite list_lookup_fmap, Hc.
Qed.

(** The field of the header for the column [j], when its label is a
    string. *)
Lemma to_csv_header float_format repr df j s :
  (columns df).*1 !! j = Some (Str s) →
  ∃ header, to_csv float_format repr df !! 0 = Some header ∧
            length header = length (index_names df) + length (columns df) ∧
            header !! (length (index_names df) + j) = Some s.
Proof.
  intros Hj. unfold to_csv. eexists. split; [done|]. split.
  - unfold format_values. by rewrite length_app, !length_fmap.
  - rewrite lookup_app_r by lia.
    rewrite Nat.add_comm, Nat.add_sub. unfold format_values.
    by rewrite list_lookup_fmap, Hj.
Qed.
End Tables.

(** ** The Output Writer: the load file and the float formats *)

Section Writer.
Context {Gdf : Type}.
Variable GeneratorClusters : Settings → option (DataFrame * DataFrame * Gdf).
Variable load_curves : Settings → option DataFrame.
Variable agg_transmission_constraints : Settings → option DataFrame.
Variable transmission_line_distance :
  DataFrame → Gdf → Settings → option DataFrame.
Variable repr_float : float → string.
Variable git_hash : string.

(** The files of a run whose builders return and whose load table casts. *)
Lemma main_writes args yaml_files ipm_regions settings
  gen_clusters units load transmission load_file :
  load_settings yaml_files (settings_file args) = Some settings →
  build_tables GeneratorClusters load_curves agg_transmission_constraints
    transmission_line_distance (sort_zones settings)
    (zone_num_map (Py.sorted (model_regions settings)))
  = Some (gen_clusters, units, load, transmission) →
  load_csv repr_float load = Some load_file →
  let out := main GeneratorClusters load_curves agg_transmission_constraints
               transmission_line_distance repr_float git_hash
               args yaml_files ipm_regions in
  completed out = true ∧
  written out
  = [("generator_clusters_" +:+ results_folder args +:+ ".csv",
      to_csv (percent_f 3) repr_float gen_clusters)]
    ++ (if all_units args
        then [("all_units_" +:+ results_folder args +:+ ".csv",
               to_csv repr_float repr_float units)]
        else [])
    ++ [("load_curves_" +:+ results_folder args +:+ ".csv", load_file);
        ("transmission_constraints_" +:+ results_folder args +:+ ".csv",
         to_csv (percent_f 1) repr_float transmission)].
Proof.
  intros Hload Hbuild Hcsv. unfold main. rewrite Hload.
  unfold zone_indexer. cbn [model_regions sort_zones].
  fold (sort_zones settings). rewrite Hbuild, Hcsv. done.
Qed.

(** The load table that the builders hand to the writer is the one of the
    load builder, relabelled. *)
Lemma build_tables_load settings zmap gen_clusters units load_in load
  transmission :
  load_curves settings = Some load_in →
  build_tables GeneratorClusters load_curves agg_transmission_constraints
    transmission_line_distance settings zmap
  = Some (gen_clusters, units, load, transmission) →
  load = rename_load_columns zmap load_in.
Proof.
  intros Hlc. unfold build_tables.
  destruct (GeneratorClusters _) as [[[g0 u] gdf]|]; [|done].
  cbn [mbind option_bind]. destruct (add_zone_column _ _); [|done].
  cbn [mbind option_bind]. rewrite Hlc. cbn [mbind option_bind].
  unfold set_load_columns. destruct (has_zone_label _ _); [|done].
  cbn [mbind option_bind].
  destruct (agg_transmission_constraints _); [|done].
  cbn [mbind option_bind].
  destruct (transmission_line_distance _ _ _); [|done].
  by intros [= _ _ <- _].
Qed.

(** C7 (amended). In a run whose builders return, with a load table of
    finite floats whose column labels are model regions, the load file is
    written.  Its header has, after the index names, the label
    ["Load_MW_z" + index] for each column, the index being the one the Zone
    Map gives the region (for unique regions: its position in the sorted
    regions, counted from 1).  It has one line per row, and the field of a
    value within the [int64] range is the value with its fraction
    discarded, written in decimal: [|z| <= |x| < |z| + 1] with the sign of
    [x].  A value beyond that range is written as -9223372036854775808.
    With the regions ["a"; "b"] the columns are ["Load_MW_z1"; "Load_MW_z2"],
    and the values 12.7 and -12.7 are written as 12 and -12. *)
Theorem load_curves_renamed_and_truncated (args : Args)
  (yaml_files : gmap string Settings) (ipm_regions : list string)
  (settings : Settings)
  (gen_clusters units load_in load transmission : DataFrame)
  (cols : list string) :
  load_settings yaml_files (settings_file args) = Some settings →
  load_curves (sort_zones settings) = Some load_in →
  build_tables GeneratorClusters load_curves agg_transmission_constraints
    transmission_line_distance (sort_zones settings)
    (zone_num_map (Py.sorted (model_regions settings)))
  = Some (gen_clusters, units, load, transmission) →
  (columns load_in).*1 = Str <$> cols →
  Forall (λ c, c ∈ model_regions settings) cols →
  finite_floats load_in →
  let out := main GeneratorClusters load_curves agg_transmission_constraints
               transmission_line_distance repr_float git_hash
               args yaml_files ipm_regions in
  let zones := Py.sorted (model_regions settings) in
  (∃ header rows,
     ("load_curves_" +:+ results_folder args +:+ ".csv", header :: rows)
     ∈ written out ∧
     length header = length (index_names load_in) + length cols ∧
     (∀ j c, cols !! j = Some c →
        ∃ idx, zone_num_map zones !! c = Some idx ∧
               header !! (length (index_names load_in) + j)
               = Some ("Load_MW_z" +:+ idx) ∧
               (NoDup (model_regions settings) →
                ∃ n, zones !! n = Some c ∧ idx = pretty (n + 1))) ∧
     length rows = length (index load_in) ∧
     (∀ i j labels label col x v,
        index load_in !! i = Some labels →
        columns load_in !! j = Some (label, col) →
        col !! i = Some (Num x) → exact_of x = Some v →
        ∃ row, rows !! i = Some row ∧
               (in_int64 (trunc v) = true →
                row !! (length labels + j) = Some (pretty (trunc v)) ∧
                truncated v (trunc v)) ∧
               (in_int64 (trunc v) = false →
                row !! (length labels + j) = Some "-9223372036854775808"))) ∧
  ("load_curves_demo.csv",
   [["time_index"; "Load_MW_z1"; "Load_MW_z2"];
    ["0"; "12"; "-12"];
    ["1"; "3"; "3"]])
  ∈ written (demo_run_load demo_load_ab ["a"; "b"] ["a"; "b"]).
Proof.
  intros Hload Hlc Hbuild Hcols Hin Hfin out zones.
  split; [|vm_compute; apply list_elem_of_further, list_elem_of_here].
  pose proof (build_tables_load _ _ _ _ _ _ _ Hlc Hbuild) as ->.
  set (zmap := zone_num_map (Py.sorted (model_regions settings))) in *.
  assert (finite_floats (rename_load_columns zmap load_in)) as Hfin'.
  { apply finite_floats_cells. rewrite rename_load_columns_cells.
    by apply finite_floats_cells. }
  destruct (astype_int_frame_finite _ Hfin')
    as (cast & Hcast & Hnames & Hindex & Hlabels & Hcells).
  simpl in Hnames, Hindex.
  rewrite rename_load_columns_labels, Hcols in Hlabels.
  rewrite rename_load_columns_cells in Hcells.
  assert (load_csv repr_float (rename_load_columns zmap load_in)
          = Some (to_csv repr_float repr_float cast)) as Hcsv.
  { unfold load_csv. by rewrite Hcast. }
  destruct (main_writes args yaml_files ipm_regions settings _ _ _ _ _
              Hload Hbuild Hcsv) as [_ Hw].
  fold out in Hw.
  assert (length (columns cast) = length cols) as Hlen.
  { rewrite <-(length_fmap fst (columns cast)), Hlabels.
    unfold radd_str, map_dict. by rewrite !length_fmap. }
  exists (index_names cast ++ format_values repr_float repr_float (columns cast).*1),
    (imap (λ i labels,
             imap (λ (k : nat) (_ : cell),
                     default "" (format_values repr_float repr_float
                                   (level_values k (index cast)) !! i)) labels
             ++ ((λ lc : cell * list cell,
                    default "" (format_values repr_float repr_float lc.2 !! i))
                   <$> columns cast))
       (index cast)).
  split_and!.
  - rewrite Hw. destruct (all_units args); set_solver.
  - unfold format_values. rewrite length_app, !length_fmap, Hlen. simpl.
    by rewrite Hnames.
  - intros j c Hj.
    assert (is_Some (zmap !! c)) as [idx Hidx].
    { apply elem_of_dom. subst zmap. rewrite zone_num_map_dom.
      apply elem_of_list_to_set. rewrite sorted_Permutation.
      rewrite Forall_forall in Hin. apply Hin.
      by eapply list_elem_of_lookup_2. }
    exists idx. split_and!; [done| |].
    + destruct (to_csv_header repr_float repr_float cast j ("Load_MW_z" +:+ idx))
        as (header & Hheader & _ & Hfield).
      { rewrite Hlabels. by eapply zone_label_lookup. }
      injection Hheader as <-. rewrite <-Hnames. exact Hfield.
    + intros Hnd. apply zone_num_map_lookup in Hidx; [done|].
      by apply sorted_NoDup.
  - by rewrite length_imap, Hindex.
  - intros i j labels label col x v Hi Hj Hc Hv.
    destruct (Hcells j col i x v) as (col' & Hcol' & Hcell); [|done..|].
    { by rewrite list_lookup_fmap, Hj. }
    assert (index cast !! i = Some labels) as Hi' by (by rewrite Hindex).
    destruct (to_csv_cell repr_float repr_float cast i j labels col' _
                Hi' Hcol' Hcell) as (row & Hrow & Hfield).
    exists row. split; [exact Hrow|]. cbn [csv_field] in Hfield.
    unfold float_to_int64 in Hfield. split.
    + intros Hr. rewrite Hr in Hfield. split; [done|].
      apply exact_of_wf in Hv as [??]. by apply trunc_truncated.
    + intros Hr. by rewrite Hr in Hfield.
Qed.

(** C8 (amended). In a run that completes, the generator-cluster file is the
    table written with ["%.3f"] and the transmission file the table written
    with ["%.1f"]: in a column of floats, the field of every finite float of
    the first is its value rounded to the nearest multiple of 0.001, with
    exactly three decimal digits, and the field of every finite float of the
    second its value rounded to the nearest multiple of 0.1, with exactly
    one.  100.12345 is written as 100.123 in the first and 52.37 as 52.4 in
    the second.  A missing value (NaN) is written as the empty field, the
    infinities as inf and -inf, and a float that sits in a column of
    objects as Python prints it, whatever the format. *)
Theorem csv_finite_floats_three_and_one_decimals (args : Args)
  (yaml_files : gmap string Settings) (ipm_regions : list string)
  (settings : Settings) (gen_clusters units load transmission : DataFrame)
  (load_file : list (list string)) :
  load_settings yaml_files (settings_file args) = Some settings →
  build_tables GeneratorClusters load_curves agg_transmission_constraints
    transmission_line_distance (sort_zones settings)
    (zone_num_map (Py.sorted (model_regions settings)))
  = Some (gen_clusters, units, load, transmission) →
  load_csv repr_float load = Some load_file →
  let out := main GeneratorClusters load_curves agg_transmission_constraints
               transmission_line_distance repr_float git_hash
               args yaml_files ipm_regions in
  let clusters_file := to_csv (percent_f 3) repr_float gen_clusters in
  let transmission_file := to_csv (percent_f 1) repr_float transmission in
  ("generator_clusters_" +:+ results_folder args +:+ ".csv", clusters_file)
  ∈ written out ∧
  ("transmission_constraints_" +:+ results_folder args +:+ ".csv",
   transmission_file) ∈ written out ∧
  (∀ i j labels label col x v,
     index gen_clusters !! i = Some labels →
     columns gen_clusters !! j = Some (label, col) →
     is_float_array col = true →
     col !! i = Some (Num x) → exact_of x = Some v →
     ∃ row field,
       clusters_file !! S i = Some row ∧
       row !! (length labels + j) = Some field ∧ written_with 3 v field) ∧
  (∀ i j labels label col x v,
     index transmission !! i = Some labels →
     columns transmission !! j = Some (label, col) →
     is_float_array col = true →
     col !! i = Some (Num x) → exact_of x = Some v →
     ∃ row field,
       transmission_file !! S i = Some row ∧
       row !! (length labels + j) = Some field ∧ written_with 1 v field) ∧
  (∀ (p : nat) (table : DataFrame) i j labels label col c x,
     index table !! i = Some labels →
     columns table !! j = Some (label, col) → col !! i = Some c →
     (c = Num x ∨ c = Obj x) →
     ∃ row, to_csv (percent_f p) repr_float table !! S i = Some row ∧
            (is_nan x = true → row !! (length labels + j) = Some "") ∧
            (is_nan x = false → is_float_array col = false →
             row !! (length labels + j) = Some (repr_float x))) ∧
  csv_field (percent_f 3) repr_float true (Num f_100_12345) = "100.123" ∧
  csv_field (percent_f 1) repr_float true (Num f_52_37) = "52.4" ∧
  csv_field (percent_f 3) repr_float true (Num infinity) = "inf" ∧
  csv_field (percent_f 3) repr_float true (Num neg_infinity) = "-inf".
Proof.
  intros Hload Hbuild Hcsv out clusters_file transmission_file.
  destruct (main_writes args yaml_files ipm_regions settings _ _ _ _ _
              Hload Hbuild Hcsv) as [_ Hw].
  fold out in Hw. rewrite Hw. split_and!.
  - set_solver.
  - destruct (all_units args); set_solver.
  - intros i j labels label col x v Hi Hj Hfloat Hc Hv.
    assert ((columns gen_clusters).*2 !! j = Some col) as Hj'
      by (by rewrite list_lookup_fmap, Hj).
    destruct (to_csv_cell (percent_f 3) repr_float gen_clusters i j labels col _
                Hi Hj' Hc) as (row & Hrow & Hfield).
    rewrite Hfloat in Hfield. eexists row, _.
    split_and!; [done..|]. by apply csv_field_finite.
  - intros i j labels label col x v Hi Hj Hfloat Hc Hv.
    assert ((columns transmission).*2 !! j = Some col) as Hj'
      by (by rewrite list_lookup_fmap, Hj).
    destruct (to_csv_cell (percent_f 1) repr_float transmission i j labels col _
                Hi Hj' Hc) as (row & Hrow & Hfield).
    rewrite Hfloat in Hfield. eexists row, _.
    split_and!; [done..|]. by apply csv_field_finite.
  - intros p table i j labels label col c x Hi Hj Hc Hx.
    assert ((columns table).*2 !! j = Some col) as Hj'
      by (by rewrite list_lookup_fmap, Hj).
    destruct (to_csv_cell (percent_f p) repr_float table i j labels col _
                Hi Hj' Hc) as (row & Hrow & Hfield).
    exists row. split; [done|]. rewrite Hfield.
    destruct Hx as [-> | ->]; cbn [csv_field]; split.
    + by intros ->.
    + by intros -> ->.
    + by intros ->.
    + by intros -> _.
  - vm_compute. reflexivity.
  - vm_compute. reflexivity.
  - vm_compute. reflexivity.
  - vm_compute. reflexivity.
Qed.
End Writer.

Lemma load_curves_renamed_and_truncated_witness :
  ∃ header row,
    ("load_curves_demo.csv", [header; row])
    ∈ written (demo_run ["b"; "a"] ["a"; "b"]) ∧
    header !! 1 = Some "Load_MW_z1" ∧ header !! 2 = Some "Load_MW_z2" ∧
    row !! 1 = Some "12".
Proof.
  destruct (load_curves_renamed_and_truncated
              (demo_clusters f_100_12345) demo_load demo_transmission
              (λ transmission _ _, Some transmission) (λ _, "") "0000000"
              (mkArgs "settings.yml" "demo" false)
              {[ "settings.yml" := mkSettings ["b"; "a"] [] [] ]}
              ["a"; "b"] (mkSettings ["b"; "a"] [] [])
              (mkDataFrame ["region"; "technology"] [[Str "a"; Str "wind"]]
                 [(Str "Existing_Cap_MW", [Num f_100_12345]);
                  (Str "zone", [Str "1"])])
              (mkDataFrame [] [] [])
              (mkDataFrame ["time_index"] [[Int 1]]
                 [(Str "a", [Num f_12_7]); (Str "b", [Num f_12_7])])
              (mkDataFrame ["time_index"] [[Int 1]]
                 [(Str "Load_MW_z1", [Num f_12_7]);
                  (Str "Load_MW_z2", [Num f_12_7])])
              (mkDataFrame ["transmission_path_name"] [[Str "a_to_b"]]
                 [(Str "Line_Max_Flow_MW", [Num f_1500]);
                  (Str "distance_mile", [Num f_52_37])])
              ["a"; "b"])
    as [(header & rows & Hfile & Hlen & Hlabels & Hrows & Hcells) _].
  - vm_compute. reflexivity.
  - vm_compute. reflexivity.
  - vm_compute. reflexivity.
  - reflexivity.
  - repeat constructor; set_solver.
  - repeat constructor; eexists _, _; (split; [reflexivity|]);
      vm_compute; reflexivity.
  - destruct (Hlabels 0 "a" eq_refl) as (idx1 & Hidx1 & Hh1 & _).
    destruct (Hlabels 1 "b" eq_refl) as (idx2 & Hidx2 & Hh2 & _).
    vm_compute in Hidx1, Hidx2.
    injection Hidx1 as <-. injection Hidx2 as <-.
    edestruct (Hcells 0 0 [Int 1] (Str "a") [Num f_12_7] f_12_7)
      as (row & Hrow & Hin & _);
      [reflexivity|reflexivity|reflexivity|vm_compute; reflexivity|].
    destruct Hin as [Hfield _]; [vm_compute; reflexivity|].
    destruct rows as [|row' [|]]; [done| |done].
    injection Hrow as ->.
    exists header, row. split_and!; [exact Hfile|exact Hh1|exact Hh2|].
    exact Hfield.
Defined.

(** C7, as stated, fails on a load beyond the [int64] range: the value
    1e19 of the load table is written as -9223372036854775808, which is not
    the value truncated. *)
Lemma load_curves_truncated_counterexample :
  ("load_curves_demo.csv",
   [["time_index"; "Load_MW_z1"]; ["1"; "-9223372036854775808"]])
  ∈ written (demo_run_load
               (mkDataFrame ["time_index"] [[Int 1]] [(Str "a", [Num f_1e19])])
               ["a"] ["a"]) ∧
  ∃ v, exact_of f_1e19 = Some v ∧ neg v = false ∧
       trunc v = 10000000000000000000%Z ∧
       pretty (trunc v) ≠ "-9223372036854775808".
Proof.
  split.
  - vm_compute. apply list_elem_of_further, list_elem_of_here.
  - eexists. split; [vm_compute; reflexivity|].
    split_and!; [done|vm_compute; reflexivity|].
    vm_compute. discriminate.
Qed.

Lemma csv_finite_floats_three_and_one_decimals_witness :
  ("generator_clusters_demo.csv",
   [["region"; "technology"; "Existing_Cap_MW"; "zone"];
    ["a"; "wind"; "100.123"; "1"]]) ∈ written (demo_run ["b"; "a"] ["a"; "b"]) ∧
  ("transmission_constraints_demo.csv",
   [["transmission_path_name"; "Line_Max_Flow_MW"; "distance_mile"];
    ["a_to_b"; "1500.0"; "52.4"]]) ∈ written (demo_run ["b"; "a"] ["a"; "b"]).
Proof.
  edestruct (csv_finite_floats_three_and_one_decimals
               (demo_clusters f_100_12345) demo_load demo_transmission
               (λ transmission _ _, Some transmission) (λ _, "") "0000000"
               (mkArgs "settings.yml" "demo" false)
               {[ "settings.yml" := mkSettings ["b"; "a"] [] [] ]}
               ["a"; "b"] (mkSettings ["b"; "a"] [] []))
    as (Hg & Ht & _).
  - vm_compute. reflexivity.
  - vm_compute. reflexivity.
  - vm_compute. reflexivity.
  - split; [exact Hg|exact Ht].
Defined.

(** C8, as stated, fails on a missing value: the NaN of a generator-cluster
    table is written as the empty field, which has no decimal places. *)
Lemma csv_three_decimals_counterexample :
  ("generator_clusters_demo.csv",
   [["region"; "technology"; "Existing_Cap_MW"; "zone"];
    ["a"; "wind"; ""; "1"]]) ∈ written (demo_run_with nan ["b"; "a"] ["a"; "b"]) ∧
  ¬ ∃ int_part decimals : string,
      csv_field (percent_f 3) (λ _, "") true (Num nan)
      = int_part +:+ "." +:+ decimals ∧
      String.length decimals = 3.
Proof.
  split.
  - vm_compute. set_solver.
  - intros (int_part & decimals & Heq & _). vm_compute in Heq.
    by destruct int_part.
Qed.


(** * Further properties of the code *)

(** ** The inverse mapping without the disjointness assumption *)

Section ReverseDictAny.
Implicit Types d : list (string * list string).

Lemma reverse_dict_is_Some d m :
  NoDup d.*1 →
  is_Some (reverse_dict_of_lists d !! m) ↔ ∃ k vs, (k, vs) ∈ d ∧ m ∈ vs.
Proof.
  intros Hnd. unfold reverse_dict_of_lists.
  rewrite <-not_eq_None_Some, dict_of_pairs_None. split.
  - intros Hin. destruct (decide (m ∈ (member_pairs d).*1)) as [Hm|]; [|done].
    apply list_elem_of_fmap in Hm as ([m' k] & -> & Hm).
    apply elem_of_member_pairs in Hm as (vs & ? & ?); eauto.
  - intros (k & vs & Hin & Hm) Hnot. apply Hnot.
    apply list_elem_of_fmap. exists (m, k). split; [done|].
    apply elem_of_member_pairs; eauto.
Qed.

Lemma reverse_dict_Some d m k :
  NoDup d.*1 →
  reverse_dict_of_lists d !! m = Some k → ∃ vs, (k, vs) ∈ d ∧ m ∈ vs.
Proof.
  intros Hnd Hk%dict_of_pairs_elem_of. by apply elem_of_member_pairs.
Qed.
End ReverseDictAny.

(** X1. Whether or not aggregates overlap, the keys of
    [reverse_dict_of_lists d] are exactly the names listed in [d], every
    name is mapped to a key of [d] that lists it, and the result is empty
    exactly when every member list is empty. *)
Theorem reverse_dict_of_lists_keys_and_values (d : list (string * list string)) :
  NoDup d.*1 →
  (∀ m, is_Some (reverse_dict_of_lists d !! m) ↔
        ∃ k vs, (k, vs) ∈ d ∧ m ∈ vs) ∧
  (∀ m k, reverse_dict_of_lists d !! m = Some k →
          ∃ vs, (k, vs) ∈ d ∧ m ∈ vs) ∧
  (reverse_dict_of_lists d = ∅ ↔ ∀ k vs, (k, vs) ∈ d → vs = []).
Proof.
  intros Hnd. split_and!.
  - intros m. by apply reverse_dict_is_Some.
  - intros m k. by apply reverse_dict_Some.
  - split.
    + intros Hempty k vs Hin. destruct vs as [|m vs]; [done|].
      assert (is_Some (reverse_dict_of_lists d !! m)) as [k' Hk'].
      { apply reverse_dict_is_Some; [done|].
        exists k, (m :: vs). split; [done|]. set_solver. }
      by rewrite Hempty in Hk'.
    + intros Hall. apply map_eq. intros m. rewrite lookup_empty.
      apply eq_None_not_Some.
      intros (k & vs & Hin & Hm)%reverse_dict_is_Some; [|done].
      rewrite (Hall k vs Hin) in Hm. by apply elem_of_nil in Hm.
Qed.

Lemma reverse_dict_of_lists_keys_and_values_witness :
  is_Some (reverse_dict_of_lists [("X", ["p"; "q"]); ("Y", ["q"])] !! "q").
Proof.
  apply (reverse_dict_of_lists_keys_and_values [("X", ["p"; "q"]); ("Y", ["q"])]).
  - repeat constructor; set_solver.
  - exists "X", ["p"; "q"]. set_solver.
Defined.

(** ** The Zone Map on lists with repeated names *)
Section ZoneMapAny.
Implicit Types zones : list string.

Lemma size_list_to_set_le zones :
  size (list_to_set zones : gset string) ≤ length zones.
Proof.
  induction zones as [|z zones IH];
    [by rewrite list_to_set_nil, size_empty|rewrite list_to_set_cons].
  destruct (decide (z ∈ (list_to_set zones : gset string))) as [Hin|Hnin].
  - replace ({[z]} ∪ list_to_set zones) with (list_to_set zones : gset string)
      by set_solver. simpl; lia.
  - rewrite size_union by set_solver. rewrite size_singleton. simpl; lia.
Qed.

Lemma size_list_to_set_NoDup zones :
  size (list_to_set zones : gset string) = length zones → NoDup zones.
Proof.
  induction zones as [|z zones IH]; [constructor|rewrite list_to_set_cons].
  pose proof (size_list_to_set_le zones) as Hle. simpl.
  destruct (decide (z ∈ (list_to_set zones : gset string))) as [Hin|Hnin].
  - replace ({[z]} ∪ list_to_set zones) with (list_to_set zones : gset string)
      by set_solver. lia.
  - rewrite size_union by set_solver. rewrite size_singleton.
    intros Hsize. constructor; [set_solver|]. apply IH. lia.
Qed.
End ZoneMapAny.

(** X2. Whatever the list of zones, the Zone Map gives a zone the number of
    its last position in the list (counted from 1), so every index lies
    between 1 and the length of the list. *)
Theorem zone_num_map_last_position (zones : list string) (zone idx : string) :
  zone_num_map zones !! zone = Some idx ↔
  ∃ i, zones !! i = Some zone ∧ idx = pretty (i + 1) ∧
       0 < i + 1 ≤ length zones ∧
       ∀ j, i < j → zones !! j ≠ Some zone.
Proof.
  unfold zone_num_map. rewrite dict_of_pairs_Some. split.
  - intros (l1 & l2 & Heq & Hlast).
    assert ((zone, idx) ∈ zone_pairs zones) as Hin by (rewrite Heq; set_solver).
    assert (zone_pairs zones !! length l1 = Some (zone, idx)) as Hl1.
    { rewrite Heq. by rewrite list_lookup_middle. }
    unfold zone_pairs, Py.range, Py.fstring_int in Hl1.
    rewrite list_lookup_fmap in Hl1.
    destruct (zip zones (seq 0 (length zones)) !! length l1)
      as [[z n]|] eqn:Hz; [|done].
    injection Hl1 as -> <-.
    apply lookup_zip_with_Some in Hz as (z' & n' & [= <- <-] & Hz & Hn).
    apply lookup_seq in Hn as [-> Hlt]. simpl in *.
    exists (length l1). split_and!; [done|done|lia|lia|].
    intros j Hj Hzj. apply Hlast.
    assert ((zone_pairs zones).*1 !! j = Some zone) as Hkj
      by (by rewrite zone_pairs_keys).
    rewrite Heq, fmap_app, fmap_cons in Hkj.
    rewrite lookup_app_r in Hkj by (rewrite length_fmap; lia).
    rewrite length_fmap in Hkj.
    destruct (j - length l1) as [|j'] eqn:Hjl; [lia|].
    simpl in Hkj. by eapply list_elem_of_lookup_2.
  - intros (i & Hi & -> & _ & Hlast).
    assert (zone_pairs zones !! i = Some (zone, pretty (i + 1))) as Hp.
    { unfold zone_pairs, Py.range, Py.fstring_int.
      rewrite list_lookup_fmap.
      assert (zip zones (seq 0 (length zones)) !! i = Some (zone, i)) as ->;
        [|done].
      apply lookup_zip_with_Some. exists zone, i. split_and!; [done..|].
      apply lookup_seq. split; [done|]. by eapply lookup_lt_Some. }
    apply list_elem_of_split_length in Hp as (l1 & l2 & Heq & Hlen).
    exists l1, l2. split; [done|].
    intros (j & Hj)%list_elem_of_lookup.
    apply (Hlast (length l1 + S j)); [lia|].
    rewrite <-(zone_pairs_keys zones), Heq, fmap_app, fmap_cons.
    rewrite lookup_app_r by (rewrite length_fmap; lia).
    rewrite length_fmap.
    replace (length l1 + S j - length l1) with (S j) by lia. done.
Qed.

(** X3. The Zone Map never has more entries than there are zones, and it
    has as many (the indices are dense) exactly when no name is repeated. *)
Theorem zone_num_map_dense_iff_unique (zones : list string) :
  size (zone_num_map zones) ≤ length zones ∧
  (size (zone_num_map zones) = length zones ↔ NoDup zones).
Proof.
  rewrite <-size_dom, zone_num_map_dom. split.
  - apply size_list_to_set_le.
  - split; [apply size_list_to_set_NoDup|]. apply size_list_to_set.
Qed.

(** X4. When the model regions are unique and the load table has one
    column per distinct model region, the renamed columns are pairwise
    distinct: two regions never share a [Load_MW_z] label. *)
Theorem load_column_labels_distinct (settings : Settings) (load : DataFrame)
  (cols : list string) :
  NoDup (model_regions settings) →
  (columns load).*1 = Str <$> cols →
  NoDup cols →
  Forall (λ c, c ∈ model_regions settings) cols →
  NoDup (columns (rename_load_columns (zone_indexer settings).1.2 load)).*1.
Proof.
  intros Hnd Hcols Hndc Hin.
  rewrite rename_load_columns_labels, Hcols.
  unfold zone_indexer. cbn [fst snd sort_zones model_regions].
  unfold radd_str, map_dict. rewrite <-!list_fmap_compose.
  apply NoDup_fmap_2_strong; [|done].
  intros c c' Hc Hc' Heq. simpl in Heq.
  rewrite Forall_forall in Hin.
  assert (∀ x, x ∈ cols →
            ∃ i, Py.sorted (model_regions settings) !! i = Some x ∧
                 zone_num_map (Py.sorted (model_regions settings)) !! x
                 = Some (pretty (i + 1))) as Hidx.
  { intros x Hx. apply Hin in Hx. rewrite <-sorted_Permutation in Hx.
    apply list_elem_of_lookup in Hx as [i Hi]. exists i. split; [done|].
    apply zone_num_map_lookup; [by apply sorted_NoDup|eauto]. }
  destruct (Hidx c Hc) as (i & Hi & Hzi).
  destruct (Hidx c' Hc') as (j & Hj & Hzj).
  rewrite Hzi, Hzj in Heq. injection Heq as Heq.
  simpl in Heq. apply pretty_nat_inj in Heq.
  assert (i = j) as -> by lia. congruence.
Qed.

Lemma load_column_labels_distinct_witness :
  NoDup (columns (rename_load_columns
                    (zone_indexer (mkSettings ["b"; "a"] [] [])).1.2
                    (mkDataFrame ["time_index"] []
                       [(Str "b", []); (Str "a", [])]))).*1.
Proof.
  apply (load_column_labels_distinct (mkSettings ["b"; "a"] [] [])
           (mkDataFrame ["time_index"] [] [(Str "b", []); (Str "a", [])])
           ["b"; "a"]).
  - repeat constructor; set_solver.
  - reflexivity.
  - repeat constructor; set_solver.
  - repeat constructor; set_solver.
Defined.

(** ** More on [map_agg_region_names] *)

(** X5. On a dataframe whose column labels are pairwise distinct,
    [map_agg_region_names] raises exactly when no column is labelled
    [original_col_name]; it makes no difference what [new_col_name] and the
    member map are. *)
Theorem map_agg_region_names_raises_iff (heap : gmap ref DataFrame) (df : ref)
  (d0 : DataFrame) (region_agg_map : gmap string string)
  (original_col_name new_col_name : string) :
  heap !! df = Some d0 →
  NoDup (columns d0).*1 →
  map_agg_region_names heap df region_agg_map original_col_name new_col_name
  = None ↔
  Str original_col_name ∉ (columns d0).*1.
Proof.
  intros Hdf _.
  assert (getitem_col (columns d0) original_col_name = None ↔
          Str original_col_name ∉ (columns d0).*1) as <-.
  { induction (columns d0) as [|[label col] cols IH]; simpl.
    - split; [set_solver|done].
    - rewrite not_elem_of_cons, <-IH.
      destruct label as [s| | |]; simpl; try (split; [done|by intros [_ ?]]).
      case_bool_decide as Hs; [subst s|].
      + split; [done|]. by intros [? _].
      + split; [|by intros [_ ?]]. intros ->. split; [congruence|done]. }
  destruct (getitem_col (columns d0) original_col_name) as [col|] eqn:Hcol.
  - by rewrite (map_agg_region_names_eq _ _ _ _ _ _ _ Hdf Hcol).
  - unfold map_agg_region_names. rewrite Hdf. simpl. by rewrite Hcol.
Qed.

Lemma map_agg_region_names_raises_iff_witness :
  map_agg_region_names
    {[ 1%positive := mkDataFrame [] [[Int 0]] [(Str "region", [Str "q"])] ]}
    1%positive {[ "p" := "X"; "q" := "X" ]} "state" "model_region"
  = None.
Proof.
  apply (map_agg_region_names_raises_iff
           {[ 1%positive := mkDataFrame [] [[Int 0]] [(Str "region", [Str "q"])] ]}
           1%positive
           (mkDataFrame [] [[Int 0]] [(Str "region", [Str "q"])])
           {[ "p" := "X"; "q" := "X" ]} "state" "model_region").
  - vm_compute. reflexivity.
  - simpl. apply NoDup_singleton.
  - simpl. intros [[=]|[]%elem_of_nil]%elem_of_cons.
Defined.

(** X6. When the new column has another name than the original one, a
    second call with the same arguments changes nothing: it returns the
    same reference and the same heap. *)
Theorem map_agg_region_names_idempotent (heap heap' : gmap ref DataFrame)
  (df r : ref) (region_agg_map : gmap string string)
  (original_col_name new_col_name : string) :
  original_col_name ≠ new_col_name →
  map_agg_region_names heap df region_agg_map original_col_name new_col_name
  = Some (r, heap') →
  map_agg_region_names heap' r region_agg_map original_col_name new_col_name
  = Some (r, heap').
Proof.
  intros Hne Hcall.
  destruct (heap !! df) as [d0|] eqn:Hdf;
    [|by unfold map_agg_region_names in Hcall; rewrite Hdf in Hcall].
  destruct (getitem_col (columns d0) original_col_name) as [col|] eqn:Hcol;
    [|by unfold map_agg_region_names in Hcall;
         rewrite Hdf in Hcall; simpl in Hcall; rewrite Hcol in Hcall].
  rewrite (map_agg_region_names_eq _ _ _ _ _ _ _ Hdf Hcol) in Hcall.
  injection Hcall as <- <-. rewrite setitem_col_twice.
  erewrite map_agg_region_names_eq; [|apply lookup_insert_eq|].
  - simpl. by rewrite !setitem_col_twice, insert_insert_eq.
  - simpl. by rewrite getitem_setitem_ne.
Qed.

Lemma map_agg_region_names_idempotent_witness :
  let d' := mkDataFrame [] [[Int 0]; [Int 1]]
              [(Str "region", [Str "p"; Str "z"]);
               (Str "model_region", [Str "X"; Str "z"])] in
  map_agg_region_names {[ 1%positive := d' ]} 1%positive
    {[ "p" := "X"; "q" := "X" ]} "region" "model_region"
  = Some (1%positive, {[ 1%positive := d' ]}).
Proof.
  intros d'.
  apply (map_agg_region_names_idempotent
           {[ 1%positive := mkDataFrame [] [[Int 0]; [Int 1]]
                              [(Str "region", [Str "p"; Str "z"])] ]}
           {[ 1%positive := d' ]} 1%positive 1%positive
           {[ "p" := "X"; "q" := "X" ]} "region" "model_region").
  - discriminate.
  - vm_compute. reflexivity.
Defined.

(** X7. With the member map that [reverse_dict_of_lists] builds from a dict
    [d], the new column holds, for a row whose region is listed in [d], the
    name of an aggregate of [d] that lists it, and for every other row the
    original value. *)
Theorem map_agg_region_names_of_reverse_dict (heap : gmap ref DataFrame)
  (df : ref) (d0 : DataFrame) (d : list (string * list string))
  (original_col_name new_col_name : string) (col : list cell) :
  NoDup d.*1 →
  heap !! df = Some d0 →
  getitem_col (columns d0) original_col_name = Some col →
  ∃ heap' d' new_col,
    map_agg_region_names heap df (reverse_dict_of_lists d)
      original_col_name new_col_name = Some (df, heap') ∧
    heap' !! df = Some d' ∧
    getitem_col (columns d') new_col_name = Some new_col ∧
    length new_col = length col ∧
    ∀ i c, col !! i = Some c →
      (∀ s, c = Str s → (∃ k vs, (k, vs) ∈ d ∧ s ∈ vs) →
         ∃ k vs, new_col !! i = Some (Str k) ∧ (k, vs) ∈ d ∧ s ∈ vs) ∧
      ((∀ s, c = Str s → ∀ k vs, (k, vs) ∈ d → s ∉ vs) →
         new_col !! i = Some c).
Proof.
  intros Hnd Hdf Hcol. eexists _, _, _. split_and!.
  - by eapply map_agg_region_names_eq.
  - apply lookup_insert_eq.
  - simpl. apply getitem_setitem_eq.
  - by rewrite length_fmap.
  - intros i c Hi. rewrite list_lookup_fmap, Hi. simpl. split.
    + intros s -> Hmem. apply reverse_dict_is_Some in Hmem as [k Hk]; [|done].
      rewrite Hk. destruct (reverse_dict_Some d s k Hnd Hk) as (vs & ? & ?).
      eauto.
    + intros Hnone. destruct c as [s| | |]; [|done..].
      destruct (reverse_dict_of_lists d !! s) as [k|] eqn:Hk; [|done].
      destruct (reverse_dict_Some d s k Hnd Hk) as (vs & Hin & Hm).
      by destruct (Hnone s eq_refl k vs Hin).
Qed.

Lemma map_agg_region_names_of_reverse_dict_witness :
  ∃ heap',
    map_agg_region_names
      {[ 1%positive := mkDataFrame [] [[Int 0]] [(Str "region", [Str "q"])] ]}
      1%positive (reverse_dict_of_lists [("X", ["p"; "q"])])
      "region" "model_region"
    = Some (1%positive, heap').
Proof.
  destruct (map_agg_region_names_of_reverse_dict
              {[ 1%positive := mkDataFrame [] [[Int 0]] [(Str "region", [Str "q"])] ]}
              1%positive
              (mkDataFrame [] [[Int 0]] [(Str "region", [Str "q"])])
              [("X", ["p"; "q"])] "region" "model_region" [Str "q"])
    as (heap' & d' & new_col & H & _).
  - repeat constructor; set_solver.
  - vm_compute. reflexivity.
  - vm_compute. reflexivity.
  - by exists heap'.
Defined.

(** ** More on the Region Validator *)

(** X8. The validator looks at the names only: if it logs nothing for some
    settings and reference regions, it logs nothing either when model
    regions are dropped or when names are added to the reference regions or
    to the keys of [region_aggregations]; the member lists of the
    aggregations play no part. *)
Theorem validate_regions_monotone (ipm_regions ipm_regions' : list string)
  (settings settings' : Settings) :
  (∀ region, region ∈ model_regions settings' →
             region ∈ model_regions settings) →
  (∀ region, region ∈ ipm_regions
             ∨ region ∈ (region_aggregations settings).*1 →
             region ∈ ipm_regions'
             ∨ region ∈ (region_aggregations settings').*1) →
  validate_regions ipm_regions settings = [] →
  validate_regions ipm_regions' settings' = [].
Proof.
  intros Hsub Hvalid Hok. unfold validate_regions in *.
  destruct (Py.all (good_regions ipm_regions settings)) eqn:Hall; [|done].
  apply all_good_regions in Hall.
  assert (Py.all (good_regions ipm_regions' settings') = true) as ->; [|done].
  apply all_good_regions. rewrite Forall_forall in Hall |- *.
  intros region Hr. apply Hvalid, Hall, Hsub, Hr.
Qed.

Lemma validate_regions_monotone_witness :
  validate_regions ["a"; "c"] (mkSettings ["b"] [("b", ["zzz"])] []) = [].
Proof.
  apply (validate_regions_monotone ["a"] ["a"; "c"]
           (mkSettings ["a"; "b"] [("b", ["a"])] [])
           (mkSettings ["b"] [("b", ["zzz"])] [])).
  - simpl. set_solver.
  - simpl. set_solver.
  - vm_compute. reflexivity.
Defined.

(** ** The run: what is written, and when *)
Section RunOutput.
Context {Gdf : Type}.
Variable GeneratorClusters : Settings → option (DataFrame * DataFrame * Gdf).
Variable load_curves : Settings → option DataFrame.
Variable agg_transmission_constraints : Settings → option DataFrame.
Variable transmission_line_distance :
  DataFrame → Gdf → Settings → option DataFrame.
Variable repr_float : float → string.
Variable git_hash : string.

Abbreviation run := (main GeneratorClusters load_curves
                       agg_transmission_constraints
                       transmission_line_distance repr_float git_hash).
Abbreviation tables_of := (build_tables GeneratorClusters load_curves
                             agg_transmission_constraints
                             transmission_line_distance).

(** X9. No file is written unless the settings were loaded and all the
    builders returned: a missing settings file or an exception in the
    generator, load or transmission builder leaves the results folder
    without any table. *)
Theorem main_writes_only_after_builders (args : Args)
  (yaml_files : gmap string Settings) (ipm_regions : list string) :
  written (run args yaml_files ipm_regions) ≠ [] →
  ∃ settings tables,
    load_settings yaml_files (settings_file args) = Some settings ∧
    tables_of (sort_zones settings)
      (zone_num_map (Py.sorted (model_regions settings))) = Some tables ∧
    (INFO, "Write GenX input files") ∈ log (run args yaml_files ipm_regions).
Proof.
  unfold main. destruct (load_settings _ _) as [settings|] eqn:Hload; [|done].
  unfold zone_indexer. cbn [model_regions sort_zones].
  fold (sort_zones settings).
  destruct (tables_of _ _) as [[[[g u] l] t]|] eqn:Hbuild; [|done].
  intros _. exists settings, (g, u, l, t). split_and!; [done..|].
  destruct (load_csv repr_float l); cbn [log]; set_solver.
Qed.

(** X10. The files are written one after the other.  When the load table
    holds a NaN or an infinity, [astype(int)] raises and the run stops
    there: the generator-cluster file (and the unit file, if asked for) is
    already written, the load and transmission files are not, and the run
    does not complete. *)
Theorem main_partial_output_on_bad_load (args : Args)
  (yaml_files : gmap string Settings) (ipm_regions : list string)
  (settings : Settings) (gen_clusters units load transmission : DataFrame)
  (label c : cell) (col : list cell) (x : float) :
  load_settings yaml_files (settings_file args) = Some settings →
  tables_of (sort_zones settings)
    (zone_num_map (Py.sorted (model_regions settings)))
  = Some (gen_clusters, units, load, transmission) →
  (label, col) ∈ columns load → c ∈ col →
  c = Num x ∨ c = Obj x → exact_of x = None →
  let out := run args yaml_files ipm_regions in
  completed out = false ∧
  written out
  = ("generator_clusters_" +:+ results_folder args +:+ ".csv",
     to_csv (percent_f 3) repr_float gen_clusters)
    :: (if all_units args
        then [("all_units_" +:+ results_folder args +:+ ".csv",
               to_csv repr_float repr_float units)]
        else []) ∧
  (INFO, "Write GenX input files") ∈ log out.
Proof.
  intros Hload Hbuild Hcol Hc Hx Hnone. unfold main. rewrite Hload.
  unfold zone_indexer. cbn [model_regions sort_zones].
  fold (sort_zones settings). rewrite Hbuild.
  unfold load_csv.
  rewrite (astype_int_frame_None load label col c Hcol Hc) by (by exists x).
  cbn [fmap option_fmap option_map log written completed].
  split_and!; [done..|]. set_solver.
Qed.

(** X11. A run that completes has written three files, or four when the
    unit table is asked for, under pairwise distinct names, and its log
    ends with the record of the Output Writer. *)
Theorem main_completed_files (args : Args)
  (yaml_files : gmap string Settings) (ipm_regions : list string) :
  let out := run args yaml_files ipm_regions in
  completed out = true →
  length (written out) = (if all_units args then 4 else 3) ∧
  NoDup (written out).*1 ∧
  last (log out) = Some (INFO, "Write GenX input files").
Proof.
  unfold main. destruct (load_settings _ _) as [settings|]; [|done].
  unfold zone_indexer. cbn [model_regions sort_zones].
  destruct (tables_of _ _) as [[[[g u] l] t]|]; [|done].
  destruct (load_csv repr_float l) as [load_file|]; [|done].
  intros _. cbn [written log]. split_and!.
  - by destruct (all_units args).
  - destruct (all_units args); simpl;
      repeat (apply NoDup_cons; split;
              [intros H;
               repeat (apply elem_of_cons in H as [H|H]; [discriminate H|]);
               by apply elem_of_nil in H|]);
      apply NoDup_nil_2.
  - by rewrite last_snoc.
Qed.
End RunOutput.

Lemma main_writes_only_after_builders_witness :
  (INFO, "Write GenX input files") ∈ log (demo_run ["b"; "a"] ["a"]).
Proof.
  edestruct (main_writes_only_after_builders
               (demo_clusters f_100_12345) demo_load demo_transmission
               (λ transmission _ _, Some transmission) (λ _, "") "0000000"
               (mkArgs "settings.yml" "demo" false)
               {[ "settings.yml" := mkSettings ["b"; "a"] [] [] ]} ["a"])
    as (settings & tables & _ & _ & Hlog).
  - vm_compute. discriminate.
  - exact Hlog.
Defined.

Lemma main_partial_output_on_bad_load_witness :
  completed
    (main (demo_clusters f_100_12345)
       (λ _, Some (mkDataFrame ["time_index"] [[Int 1]] [(Str "a", [NaN])]))
       demo_transmission (λ transmission _ _, Some transmission)
       (λ _, "") "0000000" (mkArgs "settings.yml" "demo" false)
       {[ "settings.yml" := mkSettings ["a"] [] [] ]} ["a"]) = false.
Proof.
  edestruct (main_partial_output_on_bad_load
               (demo_clusters f_100_12345)
               (λ _, Some (mkDataFrame ["time_index"] [[Int 1]]
                             [(Str "a", [NaN])]))
               demo_transmission (λ transmission _ _, Some transmission)
               (λ _, "") "0000000" (mkArgs "settings.yml" "demo" false)
               {[ "settings.yml" := mkSettings ["a"] [] [] ]} ["a"]
               (mkSettings ["a"] [] [])
               (mkDataFrame ["region"; "technology"] [[Str "a"; Str "wind"]]
                  [(Str "Existing_Cap_MW", [Num f_100_12345]);
                   (Str "zone", [Str "1"])])
               (mkDataFrame [] [] [])
               (mkDataFrame ["time_index"] [[Int 1]]
                  [(Str "Load_MW_z1", [NaN])])
               (mkDataFrame ["transmission_path_name"] [[Str "a_to_b"]]
                  [(Str "Line_Max_Flow_MW", [Num f_1500]);
                   (Str "distance_mile", [Num f_52_37])])
               (Str "Load_MW_z1") NaN [NaN] nan)
    as [Hdone _].
  - vm_compute. reflexivity.
  - vm_compute. reflexivity.
  - simpl. set_solver.
  - set_solver.
  - by left.
  - vm_compute. reflexivity.
  - exact Hdone.
Defined.

Lemma main_completed_files_witness :
  length (written (demo_run ["b"; "a"] ["a"; "b"])) = 3.
Proof.
  apply (main_completed_files
           (demo_clusters f_100_12345) demo_load demo_transmission
           (λ transmission _ _, Some transmission) (λ _, "") "0000000"
           (mkArgs "settings.yml" "demo" false)
           {[ "settings.yml" := mkSettings ["b"; "a"] [] [] ]} ["a"; "b"]).
  vm_compute. reflexivity.
Defined.

(** ** The zone column of the generator clusters *)
(** X12. When the index of the cluster table has one level named "region",
    [zone] becomes a column with one cell per cluster: the Zone Map index of
    the cluster's region, or NaN when the region is not a model region.  The
    index and the other columns stay as they are.  Without a level of that
    name the statement raises. *)
Theorem add_zone_column_cells (zmap : gmap string string)
  (gen_clusters : DataFrame) (before after : list string) :
  index_names gen_clusters = before ++ "region" :: after →
  "region" ∉ before → "region" ∉ after →
  ∃ out zone,
    add_zone_column zmap gen_clusters = Some out ∧
    index out = index gen_clusters ∧
    getitem_col (columns out) "zone" = Some zone ∧
    length zone = length (index gen_clusters) ∧
    (∀ name, name ≠ "zone" →
       getitem_col (columns out) name
       = getitem_col (columns gen_clusters) name) ∧
    ∀ i labels region, index gen_clusters !! i = Some labels →
      labels !! length before = Some (Str region) →
      zone !! i = Some (match zmap !! region with
                        | Some idx => Str idx
                        | None => NaN
                        end).
Proof.
  intros Hnames Hb Ha. unfold add_zone_column.
  rewrite (get_level_values_once _ _ _ _ Hnames Hb Ha). simpl.
  eexists _, _. split_and!; [done|done|apply getitem_setitem_eq| | |].
  - unfold map_dict, level_values. by rewrite !length_fmap.
  - intros name Hne. simpl. by apply getitem_setitem_ne.
  - intros i labels region Hi Hr. unfold map_dict, level_values.
    rewrite !list_lookup_fmap, Hi. simpl. by rewrite Hr.
Qed.

Lemma add_zone_column_cells_witness :
  ∃ out, add_zone_column {[ "a" := "1" ]}
           (mkDataFrame ["region"; "technology"]
              [[Str "a"; Str "wind"]; [Str "x"; Str "wind"]] []) = Some out.
Proof.
  destruct (add_zone_column_cells {[ "a" := "1" ]}
              (mkDataFrame ["region"; "technology"]
                 [[Str "a"; Str "wind"]; [Str "x"; Str "wind"]] [])
              [] ["technology"]) as (out & zone & H & _).
  - reflexivity.
  - set_solver.
  - set_solver.
  - by exists out.
Defined.

(** ** The naming helpers *)
Section Strings.
Import PyStr UtilNames.
Implicit Types (s t : string) (c : ascii) (P Q : ascii → bool).

Lemma all_chars_app P s t :
  all_chars P (s +:+ t) = all_chars P s && all_chars P t.
Proof. induction s as [|c s IH]; simpl; [done|]. by rewrite IH, andb_assoc. Qed.

Lemma all_chars_impl P Q s :
  (∀ c, P c = true → Q c = true) → all_chars P s = true → all_chars Q s = true.
Proof.
  intros HPQ. induction s as [|c s IH]; simpl; [done|].
  intros [Hc Hs]%andb_true_iff. by rewrite (HPQ c Hc), IH.
Qed.

Lemma all_chars_and P Q s :
  all_chars (λ c, P c && Q c) s = all_chars P s && all_chars Q s.
Proof.
  induction s as [|c s IH]; simpl; [done|]. rewrite IH.
  destruct (P c), (Q c), (all_chars P s), (all_chars Q s); done.
Qed.

Lemma all_chars_map_chars P Q g s :
  (∀ c, P c = true → Q (g c) = true) →
  all_chars P s = true → all_chars Q (map_chars g s) = true.
Proof.
  intros Hg. induction s as [|c s IH]; simpl; [done|].
  intros [Hc Hs]%andb_true_iff. by rewrite (Hg c Hc), IH.
Qed.

Lemma all_chars_filter_chars P Q s :
  all_chars P s = true → all_chars P (filter_chars Q s) = true.
Proof.
  induction s as [|c s IH]; simpl; [done|].
  intros [Hc Hs]%andb_true_iff. destruct (Q c); simpl; rewrite ?Hc; auto.
Qed.

Lemma all_chars_filter_chars_self P s : all_chars P (filter_chars P s) = true.
Proof.
  induction s as [|c s IH]; simpl; [done|].
  destruct (P c) eqn:Hc; simpl; rewrite ?Hc; simpl; exact IH.
Qed.

Lemma filter_chars_id P s : all_chars P s = true → filter_chars P s = s.
Proof.
  induction s as [|c s IH]; simpl; [done|].
  intros [-> Hs]%andb_true_iff. by rewrite IH.
Qed.

Lemma map_chars_id g P s :
  (∀ c, P c = true → g c = c) → all_chars P s = true → map_chars g s = s.
Proof.
  intros Hg. induction s as [|c s IH]; simpl; [done|].
  intros [Hc Hs]%andb_true_iff. by rewrite (Hg c Hc), IH.
Qed.

Lemma length_map_chars g s : String.length (map_chars g s) = String.length s.
Proof. induction s as [|c s IH]; simpl; by rewrite ?IH. Qed.

Lemma length_filter_chars P s :
  String.length (filter_chars P s) ≤ String.length s.
Proof. induction s as [|c s IH]; simpl; [done|]. destruct (P c); simpl; lia. Qed.

(** *** [lower] *)

Lemma lower_map_chars s : lower s = map_chars lower_char s.
Proof. induction s as [|c s IH]; simpl; by rewrite ?IH. Qed.

Lemma lower_char_not_upper c : is_upper (lower_char c) = false.
Proof. by destruct c as [[] [] [] [] [] [] [] []]. Qed.

Lemma lower_char_id c : is_upper c = false → lower_char c = c.
Proof. unfold lower_char. by intros ->. Qed.

Lemma lower_char_ascii c : is_ascii_char c = true → is_ascii_char (lower_char c) = true.
Proof. by destruct c as [[] [] [] [] [] [] [] []]. Qed.

Lemma is_ascii_all_chars s : is_ascii s = all_chars is_ascii_char s.
Proof. induction s as [|c s IH]; simpl; by rewrite ?IH. Qed.

(** *** [replace] *)

Lemma prefix_app_inv s t :
  String.prefix s t = true → ∃ r, t = s +:+ r.
Proof.
  revert t. induction s as [|a s IH]; intros t; simpl.
  - destruct t; intros _; by eexists.
  - destruct t as [|b t]; simpl; [done|].
    destruct (ascii_dec a b) as [->|]; [|done].
    intros (r & ->)%IH. by exists r.
Qed.

(** The literal pattern holds a capital letter, so it occurs in no string
    without capitals. *)
Lemma prefix_special_pattern t :
  all_chars (λ c, negb (is_upper c)) t = true →
  String.prefix special_pattern t = false.
Proof.
  intros Hno. destruct (String.prefix special_pattern t) eqn:Hp; [|done].
  apply prefix_app_inv in Hp as (r & ->).
  rewrite all_chars_app in Hno. apply andb_true_iff in Hno as [Hno _].
  by vm_compute in Hno.
Qed.

Lemma replace_special_pattern_no_upper new s :
  all_chars (λ c, negb (is_upper c)) s = true →
  replace special_pattern new s = s.
Proof.
  unfold replace. change special_pattern with "[^0-9a-zA-Z\-]+" at 1.
  cbv match. fold special_pattern.
  induction s as [|c s IH]; [done|].
  intros Hno. cbn [replace_from].
  rewrite (prefix_special_pattern _ Hno).
  simpl in Hno. apply andb_true_iff in Hno as [_ Hs]. by rewrite IH.
Qed.

Lemma replace_hyphen s :
  replace "-" "" s = filter_chars (λ c, negb (is_hyphen c)) s.
Proof.
  unfold replace. induction s as [|c s IH]; [done|].
  cbn [replace_from String.prefix String.length filter_chars].
  unfold is_hyphen. destruct (ascii_dec "-" c) as [<-|Hne].
  - rewrite bool_decide_eq_true_2 by done. simpl.
    destruct s; simpl in *; by rewrite ?IH.
  - rewrite bool_decide_eq_false_2 by done. simpl. by rewrite IH.
Qed.

Lemma replace_blank s : replace " " "_" s = map_chars blank_to_underscore s.
Proof.
  unfold replace. induction s as [|c s IH]; [done|].
  cbn [replace_from String.prefix String.length map_chars].
  unfold blank_to_underscore, is_blank.
  destruct (ascii_dec " " c) as [<-|Hne].
  - rewrite bool_decide_eq_true_2 by done. simpl.
    destruct s; simpl in *; by rewrite ?IH.
  - rewrite bool_decide_eq_false_2 by done. simpl. by rewrite IH.
Qed.

(** *** [strip] *)

Lemma all_chars_lstrip P s :
  all_chars P s = true → all_chars P (lstrip s) = true.
Proof.
  induction s as [|c s IH]; simpl; [done|].
  intros [Hc Hs]%andb_true_iff. destruct (is_space c); [auto|].
  simpl. by rewrite Hc, Hs.
Qed.

Lemma all_chars_rstrip P s :
  all_chars P s = true → all_chars P (rstrip s) = true.
Proof.
  induction s as [|c s IH]; simpl; [done|].
  intros [Hc Hs]%andb_true_iff. specialize (IH Hs).
  destruct (rstrip s) as [|c' r]; [destruct (is_space c); simpl; by rewrite ?Hc|].
  cbn [all_chars] in *. by rewrite Hc, IH.
Qed.

Lemma all_chars_strip P s :
  all_chars P s = true → all_chars P (strip s) = true.
Proof. intros. by apply all_chars_rstrip, all_chars_lstrip. Qed.

Lemma length_lstrip s : String.length (lstrip s) ≤ String.length s.
Proof. induction s as [|c s IH]; simpl; [done|]. destruct (is_space c); simpl; lia. Qed.

Lemma length_rstrip s : String.length (rstrip s) ≤ String.length s.
Proof.
  induction s as [|c s IH]; simpl; [done|].
  destruct (rstrip s) as [|c' r]; [destruct (is_space c)|]; simpl in *; lia.
Qed.

Lemma first_char_lstrip s c :
  first_char (lstrip s) = Some c → is_space c = false.
Proof.
  induction s as [|c' s IH]; simpl; [done|].
  destruct (is_space c') eqn:Hc'; [done|]. simpl. by intros [= <-].
Qed.

Lemma lstrip_id s :
  (∀ c, first_char s = Some c → is_space c = false) → lstrip s = s.
Proof. destruct s as [|c s]; simpl; [done|]. intros H. by rewrite (H c). Qed.

Lemma rstrip_fix_iff s :
  rstrip s = s ↔ ∀ c, last_char s = Some c → is_space c = false.
Proof.
  induction s as [|c s IH]; [by split|].
  cbn [rstrip last_char]. destruct s as [|c' s'].
  - simpl. split.
    + intros H d [= <-]. by destruct (is_space c).
    + intros H. by rewrite (H c).
  - destruct (rstrip (String c' s')) as [|c'' r] eqn:Hr.
    + split.
      * intros H. by destruct (is_space c).
      * intros H. apply IH in H. done.
    + split.
      * intros [= -> ->]. by apply IH.
      * intros H. apply IH in H. by rewrite H.
Qed.

Lemma rstrip_cons c s :
  rstrip (String c s)
  = match rstrip s with
    | EmptyString => if is_space c then EmptyString else String c EmptyString
    | r => String c r
    end.
Proof. done. Qed.

Lemma rstrip_idempotent s : rstrip (rstrip s) = rstrip s.
Proof.
  induction s as [|c s IH]; [done|]. rewrite rstrip_cons.
  destruct (rstrip s) as [|c' r] eqn:Hr.
  - destruct (is_space c) eqn:Hc; [done|]. simpl. by rewrite Hc.
  - by rewrite rstrip_cons, IH.
Qed.

Lemma first_char_rstrip s :
  (∀ c, first_char s = Some c → is_space c = false) →
  first_char (rstrip s) = first_char s.
Proof.
  destruct s as [|c s]; [done|]. intros H. cbn [rstrip].
  destruct (rstrip s); [|done]. by rewrite (H c).
Qed.

Lemma strip_fix_iff s :
  strip s = s ↔
  (∀ c, first_char s = Some c → is_space c = false) ∧
  (∀ c, last_char s = Some c → is_space c = false).
Proof.
  unfold strip. split.
  - intros Hs. assert (lstrip s = s) as Hl.
    { pose proof (length_rstrip (lstrip s)) as H1.
      pose proof (length_lstrip s) as H2. rewrite Hs in H1.
      destruct s as [|c s]; [done|]. pose proof (length_lstrip s). simpl in *.
      destruct (is_space c); [|done]. lia. }
    rewrite Hl in Hs. split; [|by apply rstrip_fix_iff].
    intros c Hc. rewrite <-Hl in Hc. by eapply first_char_lstrip.
  - intros [Hf Hl]. rewrite lstrip_id by done. by apply rstrip_fix_iff.
Qed.

Lemma strip_idempotent s : strip (strip s) = strip s.
Proof.
  apply strip_fix_iff. unfold strip. split.
  - intros c. rewrite first_char_rstrip by apply first_char_lstrip.
    apply first_char_lstrip.
  - apply rstrip_fix_iff, rstrip_idempotent.
Qed.

Lemma length_strip s : String.length (strip s) ≤ String.length s.
Proof.
  unfold strip. pose proof (length_rstrip (lstrip s)).
  pose proof (length_lstrip s). lia.
Qed.

Lemma first_char_map_chars g s :
  first_char (map_chars g s) = g <$> first_char s.
Proof. by destruct s. Qed.

Lemma last_char_map_chars g s :
  last_char (map_chars g s) = g <$> last_char s.
Proof.
  induction s as [|c s IH]; [done|]. cbn [map_chars last_char].
  destruct s as [|c' s']; [done|]. exact IH.
Qed.

Lemma all_chars_first_char P s c :
  all_chars P s = true → first_char s = Some c → P c = true.
Proof. destruct s; simpl; [done|]. by intros [? _]%andb_true_iff [= <-]. Qed.

Lemma all_chars_last_char P s c :
  all_chars P s = true → last_char s = Some c → P c = true.
Proof.
  induction s as [|c' s IH]; [done|]. cbn [all_chars last_char].
  intros [Hc Hs]%andb_true_iff. destruct s as [|c'' s'].
  - by intros [= <-].
  - by apply IH.
Qed.

Lemma blank_to_underscore_not_space c :
  is_space c = false → is_space (blank_to_underscore c) = false.
Proof. by destruct c as [[] [] [] [] [] [] [] []]. Qed.

Lemma strip_map_blank s :
  strip s = s →
  strip (map_chars blank_to_underscore s) = map_chars blank_to_underscore s.
Proof.
  intros [Hf Hl]%strip_fix_iff. apply strip_fix_iff. split; intros c.
  - rewrite first_char_map_chars. destruct (first_char s) as [d|]; [|done].
    intros [= <-]. by apply blank_to_underscore_not_space, Hf.
  - rewrite last_char_map_chars. destruct (last_char s) as [d|]; [|done].
    intros [= <-]. by apply blank_to_underscore_not_space, Hl.
Qed.

(** *** [snake_case_str] *)

(** The first [replace] of [snake_case_str] never finds its pattern. *)
Lemma snake_case_str_eq s :
  snake_case_str s
  = map_chars blank_to_underscore
      (strip (filter_chars (λ c, negb (is_hyphen c)) (lower s))).
Proof.
  unfold snake_case_str.
  rewrite replace_special_pattern_no_upper, replace_hyphen, replace_blank; [done|].
  rewrite lower_map_chars.
  apply (all_chars_map_chars (λ _, true)); [|by induction s].
  intros c _. by rewrite lower_char_not_upper.
Qed.

Lemma is_kept_blank_to_underscore c :
  negb (is_upper c) && negb (is_hyphen c) = true →
  is_kept (blank_to_underscore c) = true.
Proof. by destruct c as [[] [] [] [] [] [] [] []]. Qed.

Lemma snake_case_str_kept s : all_chars is_kept (snake_case_str s) = true.
Proof.
  rewrite snake_case_str_eq.
  apply (all_chars_map_chars (λ c, negb (is_upper c) && negb (is_hyphen c)));
    [apply is_kept_blank_to_underscore|].
  apply all_chars_strip. rewrite all_chars_and. apply andb_true_iff. split.
  - apply all_chars_filter_chars. rewrite lower_map_chars.
    apply (all_chars_map_chars (λ _, true)); [|by induction s].
    intros c _. by rewrite lower_char_not_upper.
  - apply all_chars_filter_chars_self.
Qed.

Lemma snake_case_str_stripped s : strip (snake_case_str s) = snake_case_str s.
Proof. rewrite snake_case_str_eq. apply strip_map_blank, strip_idempotent. Qed.

Lemma snake_case_str_fix s :
  all_chars is_kept s = true → strip s = s → snake_case_str s = s.
Proof.
  intros Hk Hs. rewrite snake_case_str_eq.
  assert (lower s = s) as ->.
  { rewrite lower_map_chars. apply (map_chars_id _ is_kept); [|done].
    intros c Hc. apply lower_char_id. unfold is_kept in Hc.
    by destruct (is_upper c). }
  rewrite filter_chars_id.
  - rewrite Hs. apply (map_chars_id _ is_kept); [|done].
    intros c Hc. unfold blank_to_underscore, is_kept in *.
    by destruct (is_blank c); [rewrite !andb_false_r in Hc|].
  - eapply all_chars_impl; [|done]. intros c Hc. unfold is_kept in Hc.
    by destruct (is_hyphen c); [rewrite andb_false_r in Hc|].
Qed.

Lemma snake_case_str_length s :
  String.length (snake_case_str s) ≤ String.length s.
Proof.
  rewrite snake_case_str_eq, length_map_chars.
  pose proof (length_strip (filter_chars (λ c, negb (is_hyphen c)) (lower s))).
  pose proof (length_filter_chars (λ c, negb (is_hyphen c)) (lower s)).
  assert (String.length (lower s) = String.length s)
    by (rewrite lower_map_chars; apply length_map_chars).
  lia.
Qed.
End Strings.

(** X14. [str.replace] takes its pattern literally, and the pattern of the
    first [replace] holds capital letters while the string was lowered
    before: on an ASCII string that [replace] changes nothing, so
    [snake_case_str] lowers the string, deletes the hyphens, strips the
    ends and turns spaces into underscores, and every other character,
    special or not, is kept. *)
Theorem snake_case_str_keeps_special_characters (s : string) :
  PyStr.is_ascii s = true →
  PyStr.replace UtilNames.special_pattern " " (PyStr.lower s) = PyStr.lower s ∧
  UtilNames.snake_case_str s
  = map_chars blank_to_underscore
      (PyStr.strip (filter_chars (λ c, negb (is_hyphen c)) (PyStr.lower s))) ∧
  String.length (UtilNames.snake_case_str s) ≤ String.length s.
Proof.
  intros _. split_and!.
  - apply replace_special_pattern_no_upper. rewrite lower_map_chars.
    apply (all_chars_map_chars (λ _, true)); [|by induction s].
    intros c _. by rewrite lower_char_not_upper.
  - apply snake_case_str_eq.
  - apply snake_case_str_length.
Qed.

Lemma snake_case_str_keeps_special_characters_witness :
  UtilNames.snake_case_str "Heat Rate ($/MWh)" = "heat_rate_($/mwh)".
Proof.
  destruct (snake_case_str_keeps_special_characters "Heat Rate ($/MWh)")
    as (_ & -> & _).
  - vm_compute. reflexivity.
  - vm_compute. reflexivity.
Defined.

(** X15. The ASCII strings that [snake_case_str] returns unchanged are
    exactly those without capital letters, hyphens and spaces that neither
    start nor end with white space. *)
Theorem snake_case_str_fixed_points (s : string) :
  PyStr.is_ascii s = true →
  UtilNames.snake_case_str s = s ↔
  all_chars is_kept s = true ∧ PyStr.strip s = s.
Proof.
  intros _. split.
  - intros Hs. split.
    + rewrite <-Hs. apply snake_case_str_kept.
    + rewrite <-Hs. apply snake_case_str_stripped.
  - intros [Hk Hst]. by apply snake_case_str_fix.
Qed.

Lemma snake_case_str_fixed_points_witness :
  UtilNames.snake_case_str "cap_size!" = "cap_size!".
Proof.
  apply (snake_case_str_fixed_points "cap_size!").
  - vm_compute. reflexivity.
  - split; vm_compute; reflexivity.
Defined.

(** X16. On ASCII strings [snake_case_str] is idempotent, and its result
    is again ASCII. *)
Theorem snake_case_str_idempotent (s : string) :
  PyStr.is_ascii s = true →
  UtilNames.snake_case_str (UtilNames.snake_case_str s)
  = UtilNames.snake_case_str s ∧
  PyStr.is_ascii (UtilNames.snake_case_str s) = true.
Proof.
  intros Hs. split.
  - apply snake_case_str_fix;
      [apply snake_case_str_kept|apply snake_case_str_stripped].
  - rewrite snake_case_str_eq, is_ascii_all_chars.
    apply (all_chars_map_chars PyStr.is_ascii_char).
    { intros c Hc. unfold blank_to_underscore. by destruct (is_blank c). }
    apply all_chars_strip, all_chars_filter_chars.
    rewrite lower_map_chars.
    apply (all_chars_map_chars PyStr.is_ascii_char);
      [apply lower_char_ascii|by rewrite <-is_ascii_all_chars].
Qed.

Lemma snake_case_str_idempotent_witness :
  UtilNames.snake_case_str (UtilNames.snake_case_str " Heat-Rate MMBtu ")
  = UtilNames.snake_case_str " Heat-Rate MMBtu ".
Proof.
  apply (snake_case_str_idempotent " Heat-Rate MMBtu ").
  vm_compute. reflexivity.
Defined.

(** ** [snake_case_col] *)
Section SnakeCaseCol.
Import PyStr UtilNames.
Implicit Types (s t : string) (c : ascii).

Lemma word_char_lower c :
  is_word_char c = true → is_upper c = false →
  is_alnum_lower c || is_hyphen c = true.
Proof. by destruct c as [[] [] [] [] [] [] [] []]. Qed.

Lemma all_chars_sub_special_runs in_run s :
  all_chars (λ c, negb (is_upper c)) s = true →
  all_chars (λ c, is_alnum_lower c || is_hyphen c || is_blank c)
    (sub_special_runs in_run s) = true.
Proof.
  revert in_run. induction s as [|c s IH]; intros in_run; simpl; [done|].
  intros [Hc Hs]%andb_true_iff. apply negb_true_iff in Hc.
  destruct (is_word_char c) eqn:Hw.
  - simpl. by rewrite (word_char_lower c Hw Hc), IH.
  - destruct in_run; simpl; by rewrite ?IH.
Qed.

Lemma length_sub_special_runs in_run s :
  String.length (sub_special_runs in_run s) ≤ String.length s.
Proof.
  revert in_run. induction s as [|c s IH]; intros in_run; simpl; [done|].
  destruct (is_word_char c); [|destruct in_run]; simpl;
    pose proof (IH true); pose proof (IH false); lia.
Qed.

Lemma snake_char c :
  is_alnum_lower c || is_blank c = true →
  is_snake (blank_to_underscore c) = true.
Proof. by destruct c as [[] [] [] [] [] [] [] []]. Qed.

Lemma end_char c :
  is_alnum_lower c || is_blank c = true → is_space c = false →
  is_alnum_lower (blank_to_underscore c) = true.
Proof. by destruct c as [[] [] [] [] [] [] [] []]. Qed.

Lemma hyphen_out c :
  (is_alnum_lower c || is_hyphen c || is_blank c) && negb (is_hyphen c) = true →
  is_alnum_lower c || is_blank c = true.
Proof. by destruct c as [[] [] [] [] [] [] [] []]. Qed.

(** The string of the regular-expression variant before its last step. *)
Lemma regex_stripped_chars s :
  let t := strip (filter_chars (λ c, negb (is_hyphen c))
                    (sub_special_runs false (lower s))) in
  all_chars (λ c, is_alnum_lower c || is_blank c) t = true ∧ strip t = t ∧
  String.length t ≤ String.length s.
Proof.
  intros t. subst t. split_and!.
  - apply all_chars_strip.
    eapply all_chars_impl; [apply hyphen_out|].
    rewrite all_chars_and. apply andb_true_iff. split.
    + apply all_chars_filter_chars, all_chars_sub_special_runs.
      rewrite lower_map_chars.
      apply (all_chars_map_chars (λ _, true)); [|by induction s].
      intros c _. by rewrite lower_char_not_upper.
    + apply all_chars_filter_chars_self.
  - apply strip_idempotent.
  - etrans; [apply length_strip|]. etrans; [apply length_filter_chars|].
    etrans; [apply length_sub_special_runs|].
    by rewrite lower_map_chars, length_map_chars.
Qed.

Lemma snake_case_elem_regex s :
  snake_case_elem true s
  = map_chars blank_to_underscore
      (strip (filter_chars (λ c, negb (is_hyphen c))
                (sub_special_runs false (lower s)))).
Proof.
  unfold snake_case_elem, str_replace_special.
  by rewrite replace_hyphen, replace_blank.
Qed.
Lemma str_accessor_ok_Str (col : list cell) i s :
  col !! i = Some (Str s) → str_accessor_ok col = true.
Proof.
  intros Hi. unfold str_accessor_ok. apply orb_true_iff. left.
  apply existsb_exists. exists (Str s). split; [|done].
  apply list_elem_of_In. by eapply list_elem_of_lookup_2.
Qed.

Lemma str_accessor_ok_floats (col : list cell) :
  is_float_array col = true → str_accessor_ok col = false.
Proof.
  intros Hf. unfold str_accessor_ok. rewrite Hf, andb_false_l, orb_false_r.
  destruct col as [|c col]; [done|]. unfold is_float_array in Hf.
  induction (c :: col) as [|c' col' IH]; [done|]. simpl in *.
  apply andb_true_iff in Hf as [Hc Hcol]. rewrite (IH Hcol).
  by destruct c'.
Qed.
End SnakeCaseCol.

(** X17. On a column that holds a string, [snake_case_col] returns a
    column of the same length, in which every cell that is no string is NaN
    and each string is worked on by itself.  Where the pattern of
    [Series.str.replace] is a regular expression by default, an ASCII name
    comes out in snake case: only digits, small letters and underscores,
    with no underscore at either end, and not longer than before.  Where the
    pattern is literal by default, the name comes out as [snake_case_str]
    returns it.  On a column of floats the function raises. *)
Theorem snake_case_col_cells (regex_default : bool) (col : list cell)
  (i : nat) (s : string) :
  col !! i = Some (Str s) → PyStr.is_ascii s = true →
  (∃ out,
     UtilNames.snake_case_col regex_default col = Some out ∧
     length out = length col ∧
     ∀ j c, col !! j = Some c → (∀ s', c ≠ Str s') → out !! j = Some NaN) ∧
  (∃ out,
     UtilNames.snake_case_col false col = Some out ∧
     out !! i = Some (Str (UtilNames.snake_case_str s))) ∧
  (∃ out name,
     UtilNames.snake_case_col true col = Some out ∧
     out !! i = Some (Str name) ∧
     all_chars is_snake name = true ∧
     (∀ d, first_char name = Some d → is_alnum_lower d = true) ∧
     (∀ d, last_char name = Some d → is_alnum_lower d = true) ∧
     String.length name ≤ String.length s) ∧
  (∀ floats, is_float_array floats = true →
             UtilNames.snake_case_col regex_default floats = None).
Proof.
  intros Hi Hascii. unfold UtilNames.snake_case_col.
  rewrite (str_accessor_ok_Str col i s Hi). split_and!.
  - eexists. split_and!; [done|by rewrite length_fmap|].
    intros j c Hj Hc. rewrite list_lookup_fmap, Hj. simpl.
    destruct c as [s'| | |]; [by destruct (Hc s')|done..].
  - eexists. split; [done|]. by rewrite list_lookup_fmap, Hi.
  - eexists _, _. split; [done|]. split; [by rewrite list_lookup_fmap, Hi|].
    rewrite snake_case_elem_regex.
    destruct (regex_stripped_chars s) as (Hchars & [Hf Hl]%strip_fix_iff & Hlen).
    split_and!.
    + eapply all_chars_map_chars; [apply snake_char|done].
    + intros d. rewrite first_char_map_chars.
      destruct (first_char _) as [d'|] eqn:Hd; [|done]. intros [= <-].
      apply end_char; [|by apply Hf].
      by eapply (all_chars_first_char _ _ _ Hchars).
    + intros d. rewrite last_char_map_chars.
      destruct (last_char _) as [d'|] eqn:Hd; [|done]. intros [= <-].
      apply end_char; [|by apply Hl].
      by eapply (all_chars_last_char _ _ _ Hchars).
    + by rewrite length_map_chars.
  - intros floats Hf. by rewrite (str_accessor_ok_floats floats Hf).
Qed.

Lemma snake_case_col_cells_witness :
  ∃ out,
    UtilNames.snake_case_col false [Str "Heat Rate ($/MWh)"; Int 3] = Some out ∧
    out !! 0 = Some (Str "heat_rate_($/mwh)").
Proof.
  destruct (snake_case_col_cells false [Str "Heat Rate ($/MWh)"; Int 3] 0
              "Heat Rate ($/MWh)") as (_ & (out & Hout & Hcell) & _).
  - reflexivity.
  - vm_compute. reflexivity.
  - exists out. split; [exact Hout|]. rewrite Hcell. vm_compute. reflexivity.
Defined.

(** ** The command line *)
Section CommandLineFacts.
Import CommandLine.
Implicit Types (words : list string) (args : Args).

Lemma option_of_hyphen word o :
  option_of word = Some o → starts_with_hyphen word = true.
Proof.
  unfold option_of. repeat case_decide; subst; try done.
Qed.

(** Induction on the words, two at a time. *)
Lemma words_ind (P : list string → Prop) :
  P [] → (∀ w, P [w]) →
  (∀ w v words, P words → P (v :: words) → P (w :: v :: words)) →
  ∀ words, P words.
Proof.
  intros H0 H1 H2 words.
  assert (P words ∧ ∀ w, P (w :: words)) as [? _]; [|done].
  induction words as [|v words [IH1 IH2]]; [by split|].
  split; [done|]. intros w. by apply H2.
Qed.

Lemma parse_words_all_units words args extras a :
  parse_words words args extras = Parsed a →
  "" ∉ words → all_units args = true → all_units a = true.
Proof.
  revert args extras.
  induction words as [| w | w v words IH IHv] using words_ind;
    intros args extras; simpl.
  - destruct extras; [done|]. by intros [= <-].
  - destruct (starts_with_hyphen w).
    + by destruct (option_of w).
    + done.
  - destruct (starts_with_hyphen w) eqn:Hw.
    + destruct (option_of w) as [o|]; [|done].
      destruct (starts_with_hyphen v) eqn:Hv; [by destruct (option_of v)|].
      intros Hp Hnot Hall. eapply IH; [done|set_solver|].
      destruct o; simpl; [done..|].
      destruct v; [set_solver|done].
    + intros Hp Hnot Hall. eapply (IHv args true); [done|set_solver|done].
Qed.
End CommandLineFacts.

(** X18. The option [-a] / [--all_units] has [type=bool], so its argument
    goes through [bool].  On a command line whose words that start with a
    hyphen are all option strings (no [--option=value], no abbreviation):
    whenever the command line is accepted and none of its words is the
    empty string, [all_units] is true, whatever was written after [-a]
    ("False", "0", "no"). *)
Theorem parse_command_line_all_units_stays_true (now : string)
  (argv : list string) (a : Args) :
  Forall (λ w, CommandLine.starts_with_hyphen w = true → w ∈ option_strings)
    (drop 1 argv) →
  CommandLine.parse_command_line now argv = CommandLine.Parsed a →
  "" ∉ drop 1 argv →
  all_units a = true.
Proof.
  intros _ Hp Hnot. by eapply parse_words_all_units.
Qed.

Lemma parse_command_line_all_units_stays_true_witness :
  ∃ a, CommandLine.parse_command_line "2019-07-01 10.00.00"
         ["extract_pudl_data.py"; "-a"; "False"] = CommandLine.Parsed a ∧
       all_units a = true.
Proof.
  eexists. split; [vm_compute; reflexivity|].
  apply (parse_command_line_all_units_stays_true "2019-07-01 10.00.00"
           ["extract_pudl_data.py"; "-a"; "False"]).
  - simpl. repeat constructor; simpl; try done; intros _; set_solver.
  - vm_compute. reflexivity.
  - simpl. set_solver.
Defined.

Section CommandLineShape.
Import CommandLine.
Implicit Types (words : list string) (args : Args).

Lemma option_of_is_Some word :
  is_Some (option_of word) ↔ word ∈ option_strings.
Proof.
  unfold option_of, option_strings. split.
  - repeat case_decide; subst; intros [? ?]; try done; set_solver.
  - intros Hin. repeat (apply elem_of_cons in Hin as [->|Hin]; [by eexists|]).
    by apply elem_of_nil in Hin.
Qed.

Lemma parse_words_extras words args a :
  parse_words words args true ≠ Parsed a.
Proof.
  revert args.
  induction words as [| w | w v words IH IHv] using words_ind;
    intros args; simpl; [done| |].
  - destruct (starts_with_hyphen w); [by destruct (option_of w)|done].
  - destruct (starts_with_hyphen w).
    + destruct (option_of w); [|done].
      destruct (starts_with_hyphen v); [by destruct (option_of v)|]. apply IH.
    + apply IHv.
Qed.

(** The accepted command lines, and what they are parsed to. *)
Lemma parse_words_Parsed words args a :
  parse_words words args false = Parsed a ↔
  ∃ pairs, words = words_of_pairs pairs ∧ Forall is_option_pair pairs ∧
           a = store_pairs pairs args.
Proof.
  revert args.
  induction words as [| w | w v words IH IHv] using words_ind; intros args.
  - simpl. split.
    + intros [= <-]. by exists [].
    + intros (pairs & Hw & _ & ->). by destruct pairs.
  - simpl. split.
    + destruct (starts_with_hyphen w); [by destruct (option_of w)|done].
    + intros (pairs & Hw & _). by destruct pairs as [|? [|? ?]].
  - cbn [parse_words]. split.
    + destruct (starts_with_hyphen w) eqn:Hw;
        [|intros H; by destruct (parse_words_extras (v :: words) args a)].
      destruct (option_of w) as [o|] eqn:Ho; [|done].
      destruct (starts_with_hyphen v) eqn:Hv; [by destruct (option_of v)|].
      intros (pairs & -> & Hall & ->)%IH. exists ((w, v) :: pairs).
      split_and!;
        [done| |by unfold store_pairs; cbn [foldl fst snd]; rewrite Ho].
      constructor; [|done]. split; [|done].
      apply option_of_is_Some. simpl. by rewrite Ho.
    + intros (pairs & Hwords & Hall & ->).
      destruct pairs as [|[w' v'] pairs]; [done|].
      injection Hwords as -> -> ->.
      apply Forall_cons in Hall as [[Hopt Hv] Hall]. simpl in Hopt, Hv.
      apply option_of_is_Some in Hopt as [o Ho].
      rewrite (option_of_hyphen _ _ Ho), Ho, Hv.
      apply IH. exists pairs. split_and!; [done..|].
      unfold store_pairs. cbn [foldl fst snd]. by rewrite Ho.
Qed.

(** On words that are options or do not start with a hyphen, the parser
    returns the options or exits with status 2. *)
Lemma parse_words_modelled words args extras :
  Forall (λ w, starts_with_hyphen w = true → w ∈ option_strings) words →
  (∃ a, parse_words words args extras = Parsed a) ∨
  parse_words words args extras = SystemExit 2.
Proof.
  revert args extras.
  induction words as [| w | w v words IH IHv] using words_ind;
    intros args extras Hall; simpl.
  - destruct extras; eauto.
  - apply Forall_cons in Hall as [Hw _].
    destruct (starts_with_hyphen w).
    + apply option_of_is_Some in Hw as [o ->]; auto.
    + destruct extras; auto.
  - apply Forall_cons in Hall as [Hw Hall].
    pose proof Hall as Hall'. apply Forall_cons in Hall' as [Hv Hall'].
    destruct (starts_with_hyphen w).
    + apply option_of_is_Some in Hw as [o ->]; [|done].
      destruct (starts_with_hyphen v).
      * apply option_of_is_Some in Hv as [o' ->]; auto.
      * by apply IH.
    + by apply IHv.
Qed.
End CommandLineShape.

(** X19. Among the command lines whose words that start with a hyphen
    are all option strings (no [--option=value], no abbreviation, no
    negative number), [parse_command_line] returns options exactly for
    those that consist of option strings, each followed by an argument that
    does not start with a hyphen; the result is then the defaults
    ("pudl_data_extraction.yml", the time stamp, [True]) with the options
    stored from left to right, so that a repeated option takes its last
    argument. *)
Theorem parse_command_line_accepts (now : string) (argv : list string)
  (a : Args) :
  Forall (λ w, CommandLine.starts_with_hyphen w = true → w ∈ option_strings)
    (drop 1 argv) →
  CommandLine.parse_command_line now argv = CommandLine.Parsed a ↔
  ∃ pairs, drop 1 argv = words_of_pairs pairs ∧
           Forall is_option_pair pairs ∧
           a = store_pairs pairs (mkArgs "pudl_data_extraction.yml" now true).
Proof.
  intros _. unfold CommandLine.parse_command_line. split.
  - intros Hparsed. by apply parse_words_Parsed.
  - intros (pairs & Hwords & Hpairs & Ha).
    apply parse_words_Parsed. by exists pairs.
Qed.

Lemma parse_command_line_accepts_witness :
  CommandLine.parse_command_line "2019-07-01 10.00.00"
    ["extract_pudl_data.py"; "-rf"; "run1"; "-sf"; "a.yml"; "-rf"; "run2"]
  = CommandLine.Parsed (mkArgs "a.yml" "run2" true).
Proof.
  apply (parse_command_line_accepts "2019-07-01 10.00.00"
           ["extract_pudl_data.py"; "-rf"; "run1"; "-sf"; "a.yml"; "-rf"; "run2"]).
  - simpl. repeat constructor; simpl; try done; intros _; set_solver.
  - exists [("-rf", "run1"); ("-sf", "a.yml"); ("-rf", "run2")].
    split_and!; [reflexivity| |reflexivity].
    repeat constructor; simpl; set_solver.
Defined.

(** X20. On a command line whose words that start with a hyphen are all
    option strings, every other shape is an error: an option without
    argument, an option followed by another option, or a word that belongs
    to no option makes the parser exit with status 2. *)
Theorem parse_command_line_rejects (now : string) (argv : list string) :
  Forall (λ w, CommandLine.starts_with_hyphen w = true → w ∈ option_strings)
    (drop 1 argv) →
  (¬ ∃ pairs, drop 1 argv = words_of_pairs pairs ∧
              Forall is_option_pair pairs) →
  CommandLine.parse_command_line now argv = CommandLine.SystemExit 2.
Proof.
  intros Hmod Hshape. unfold CommandLine.parse_command_line.
  destruct (parse_words_modelled (drop 1 argv)
              (mkArgs "pudl_data_extraction.yml" now true) false Hmod)
    as [[a Ha]|]; [|done].
  destruct Hshape. apply parse_words_Parsed in Ha as (pairs & ? & ? & _).
  by exists pairs.
Qed.

Lemma parse_command_line_rejects_witness :
  CommandLine.parse_command_line "2019-07-01 10.00.00"
    ["extract_pudl_data.py"; "-rf"; "run1"; "-sf"]
  = CommandLine.SystemExit 2.
Proof.
  apply (parse_command_line_rejects "2019-07-01 10.00.00"
           ["extract_pudl_data.py"; "-rf"; "run1"; "-sf"]).
  - simpl. repeat constructor; simpl; try done; intros _; set_solver.
  - simpl. intros (pairs & Hw & _).
    destruct pairs as [|[? ?] [|[? ?] [|[? ?] ?]]]; discriminate.
Defined.

Section CommandLineRun.
Context {Gdf : Type}.
Variable GeneratorClusters : Settings → option (DataFrame * DataFrame * Gdf).
Variable load_curves : Settings → option DataFrame.
Variable agg_transmission_constraints : Settings → option DataFrame.
Variable transmission_line_distance :
  DataFrame → Gdf → Settings → option DataFrame.
Variable repr_float : float → string.
Variable git_hash : string.

(** X21. From the command line to the files, for a command line whose
    words that start with a hyphen are all option strings: when it is
    accepted and none of its words is empty, a run that completes has
    written the unit table, also when the command line said [-a False]. *)
Theorem all_units_file_written (now : string) (argv : list string) (a : Args)
  (yaml_files : gmap string Settings) (ipm_regions : list string) :
  Forall (λ w, CommandLine.starts_with_hyphen w = true → w ∈ option_strings)
    (drop 1 argv) →
  CommandLine.parse_command_line now argv = CommandLine.Parsed a →
  "" ∉ drop 1 argv →
  let out := main GeneratorClusters load_curves agg_transmission_constraints
               transmission_line_distance repr_float git_hash
               a yaml_files ipm_regions in
  completed out = true →
  ∃ content,
    ("all_units_" +:+ results_folder a +:+ ".csv", content) ∈ written out.
Proof.
  intros _ Hp Hnot.
  pose proof (parse_words_all_units _ _ _ _ Hp Hnot eq_refl) as Ha.
  unfold main. destruct (load_settings _ _) as [settings|]; [|done].
  unfold zone_indexer. cbn [model_regions sort_zones].
  destruct (build_tables _ _ _ _ _ _) as [[[[g u] l] t]|]; [|done].
  destruct (load_csv repr_float l) as [load_file|]; [|done].
  intros _. cbn [written]. rewrite Ha.
  exists (to_csv repr_float repr_float u).
  simpl. apply list_elem_of_further, list_elem_of_here.
Qed.
End CommandLineRun.

Lemma all_units_file_written_witness :
  ∃ content,
    ("all_units_demo.csv", content)
    ∈ written (main (demo_clusters f_100_12345) demo_load demo_transmission
                 (λ transmission _ _, Some transmission) (λ _, "") "0000000"
                 (mkArgs "settings.yml" "demo" true)
                 {[ "settings.yml" := mkSettings ["b"; "a"] [] [] ]}
                 ["a"; "b"]).
Proof.
  apply (all_units_file_written
           (demo_clusters f_100_12345) demo_load demo_transmission
           (λ transmission _ _, Some transmission) (λ _, "") "0000000"
           "2019-07-01 10.00.00"
           ["extract_pudl_data.py"; "-sf"; "settings.yml"; "-a"; "False";
            "-rf"; "demo"]
           (mkArgs "settings.yml" "demo" true)).
  - simpl. repeat constructor; simpl; try done; intros _; set_solver.
  - vm_compute. reflexivity.
  - simpl. set_solver.
  - vm_compute. reflexivity.
Defined.
